(** * pyslicer: the coordinate-wise MCMC slice sampler [slicer]

    A shallow embedding of [src/pyslicer.py].  The sampler is written once,
    over an interface [Num] of the float operations the source uses
    (addition, subtraction, multiplication, [<], [np.floor], [np.log] and the
    int-to-float conversion).  Two instances are given: IEEE binary64 as
    specified by the standard library's [SpecFloat] (with NaN, infinities and
    rounding), and the rationals [Qc] (arithmetic without rounding).

    The process-wide generator behind [rand()] is a stream [rand : nat -> F]
    together with the number of draws consumed so far.  Every [while] loop of
    the source takes a fuel argument; the outcome [Fuel] means that the loop
    was still running when the fuel ran out. *)

From Stdlib Require Import ZArith List Bool Lia Arith PeanoNat.
From Stdlib Require Import QArith Qcanon Qround.
From Stdlib Require Import SpecFloat.
From Stdlib Require Import Ring.
Import ListNotations.

Close Scope Q_scope.
Close Scope Qc_scope.
Local Open Scope nat_scope.

(** ** The float operations used by the source *)

Class Num (F : Type) : Type := {
  fzero : F;                 (* 0.0 *)
  fone : F;                  (* 1.0 *)
  fadd : F -> F -> F;
  fsub : F -> F -> F;
  fmul : F -> F -> F;
  fltb : F -> F -> bool;     (* a < b *)
  ffloor : F -> F;           (* np.floor *)
  flog : F -> F;             (* np.log *)
  of_int : Z -> F            (* a Python int used in float arithmetic,
                                for an int that has a float: [int_converts] *)
}.

(** ** Outcomes: a value, a Python exception, or a loop still running

    The exceptions are those of the array assignments of [slicer]; for the
    OverflowError of an int without a float see [int_converts]. *)

Inductive exn : Type := ValueError | IndexError.

Inductive res (A : Type) : Type :=
| Ret (a : A)
| Raise (e : exn)
| Fuel.

Arguments Ret {A} a.
Arguments Raise {A} e.
Arguments Fuel {A}.

Definition bind {A B : Type} (c : res A) (k : A -> res B) : res B :=
  match c with
  | Ret a => k a
  | Raise e => Raise e
  | Fuel => Fuel
  end.

Notation "x <- c ;; k" := (bind c (fun x => k))
  (at level 61, c at next level, right associativity).

(** ** One-dimensional arrays *)

(** [l[i] = v] for an index in range (the callers check the range). *)
Fixpoint upd {A : Type} (i : nat) (v : A) (l : list A) : list A :=
  match l, i with
  | [], _ => []
  | _ :: t, O => v :: t
  | h :: t, S j => h :: upd j v t
  end.

Fixpoint zipwith {A : Type} (f : A -> A -> A) (a b : list A) : list A :=
  match a, b with
  | x :: a', y :: b' => f x y :: zipwith f a' b'
  | _, _ => []
  end.

(** Elementwise binary operation of numpy on two 1-d arrays: an operand with
    one element is broadcast.  Operands of other, different lengths make
    numpy raise; [slicer_init] has then already raised, see [set_row]. *)
Definition bcast {A : Type} (f : A -> A -> A) (a b : list A) : list A :=
  match a, b with
  | [x], _ => map (f x) b
  | _, [y] => map (fun x => f x y) a
  | _, _ => zipwith f a b
  end.

(** [xs[i,:] = v]: IndexError out of range, ValueError when [v] has neither
    the length of the row nor length one. *)
Definition set_row {A : Type} (i : nat) (v : list A) (xs : list (list A))
  : res (list (list A)) :=
  match nth_error xs i with
  | None => Raise IndexError
  | Some row =>
      if length v =? length row then Ret (upd i v xs)
      else match v with
           | [x] => Ret (upd i (repeat x (length row)) xs)
           | _ => Raise ValueError
           end
  end.

(** [l[i] = v] *)
Definition set_item {A : Type} (i : nat) (v : A) (l : list A) : res (list A) :=
  match nth_error l i with
  | None => Raise IndexError
  | Some _ => Ret (upd i v l)
  end.

(** ** The sampler *)

Section Slicer.

Context {F : Type} {NF : Num F}.
Context {X : Type}.

Local Abbreviation vec := (list F).

(** The uniform source: [rand k] is the value of the (k+1)-th call of
    [rand()]. *)
Variable rand : nat -> F.

Variable g : vec -> X -> F.
Variable xargs : X.
Variable w : F.
Variable m : Z.

(** Program state at the head of a coordinate step. *)
Record state : Type := mkState {
  xs : list vec;        (* the chain, N rows of dim columns *)
  likelies : list F;
  x0 : vec;             (* current point *)
  way : vec;
  i : nat;              (* index of the next row to fill *)
  draws : nat           (* calls of rand() made so far *)
}.

(** [while J > 0 and y < g(L,xargs): L = L - w * way; J = J - 1] *)
Fixpoint step_out_left (fuel : nat) (way : vec) (y : F) (L : vec) (J : F)
  : res (vec * F) :=
  match fuel with
  | O => Fuel
  | S fuel' =>
      if fltb fzero J && fltb y (g L xargs)
      then step_out_left fuel' way y (bcast fsub L (map (fmul w) way))
             (fsub J fone)
      else Ret (L, J)
  end.

(** [while K > 0 and y < g(R,xargs): R = R + w * way; K = K - 1] *)
Fixpoint step_out_right (fuel : nat) (way : vec) (y : F) (R : vec) (K : F)
  : res (vec * F) :=
  match fuel with
  | O => Fuel
  | S fuel' =>
      if fltb fzero K && fltb y (g R xargs)
      then step_out_right fuel' way y (bcast fadd R (map (fmul w) way))
             (fsub K fone)
      else Ret (R, K)
  end.



(** The bracket [(L, R)] as first placed around [x0] (lines 49-51). *)
Definition bracket_L (x0 way : vec) (U : F) : vec :=
  bcast fsub x0 (map (fun a => fmul a U) (map (fmul w) way)).

Definition bracket_R (L way : vec) : vec :=
  bcast fadd L (map (fmul w) way).

(** The expansion budgets (lines 52-54). *)
Definition budget_J (V : F) : F := ffloor (fmul (of_int m) V).
Definition budget_K (J : F) : F := fsub (of_int (m - 1)) J.

(** Lines 49-60: returns the bracket and what is left of the budgets. *)
Definition step_out (fuel : nat) (x0 way : vec) (y U V : F)
  : res ((vec * F) * (vec * F)) :=
  let L := bracket_L x0 way U in
  let R := bracket_R L way in
  let J := budget_J V in
  let K := budget_K J in
  LJ <- step_out_left fuel way y L J ;;
  RK <- step_out_right fuel way y R K ;;
  Ret (LJ, RK).

(** Lines 63-73, [while True]: returns the accepted [x1] and the number of
    draws made so far. *)
Fixpoint shrink (fuel : nat) (d : nat) (x0 : vec) (y : F) (Lbar Rbar : vec)
  (k : nat) : res (vec * nat) :=
  match fuel with
  | O => Fuel
  | S fuel' =>
      let U := rand k in
      let x1 := bcast fadd Lbar (map (fmul U) (bcast fsub Rbar Lbar)) in
      if fltb y (g x1 xargs) then Ret (x1, S k)
      else if fltb (nth d x1 fzero) (nth d x0 fzero)
           then shrink fuel' d x0 y x1 Rbar (S k)
           else shrink fuel' d x0 y Lbar x1 (S k)
  end.

(** [way = 0.0 * way; way[d] = 1.0] *)
Definition set_way (d : nat) (way : vec) : vec :=
  upd d fone (map (fmul fzero) way).

(** The slice height of the step that starts in [st] (lines 46-47). *)
Definition height (st : state) : F :=
  fadd (g (x0 st) xargs) (flog (rand (draws st))).

(** The body of the [for] loop, lines 44-77. *)
Definition coord_step (fuel : nat) (d : nat) (st : state) : res state :=
  let way := set_way d (way st) in
  let y0 := g (x0 st) xargs in
  let y := fadd y0 (flog (rand (draws st))) in
  let U := rand (1 + draws st) in
  let V := rand (2 + draws st) in
  LR <- step_out fuel (x0 st) way y U V ;;
  x1k <- shrink fuel d (x0 st) y (fst (fst LR)) (fst (snd LR)) (3 + draws st) ;;
  xs' <- set_row (i st) (fst x1k) (xs st) ;;
  likelies' <- set_item (i st) y0 (likelies st) ;;
  Ret (mkState xs' likelies' (fst x1k) way (S (i st)) (snd x1k)).

(** [for d in range(dim): ...; if i >= N: break], over the remaining [ds]. *)
Fixpoint sweep (fuel : nat) (N : nat) (ds : list nat) (st : state)
  : res state :=
  match ds with
  | [] => Ret st
  | d :: ds' =>
      st' <- coord_step fuel d st ;;
      if N <=? i st' then Ret st' else sweep fuel N ds' st'
  end.

(** [while i < N: for d in range(dim): ...]; [n] bounds the number of
    sweeps. *)
Fixpoint chain_loop (fuel : nat) (N dim : nat) (n : nat) (st : state)
  : res state :=
  match n with
  | O => Fuel
  | S n' =>
      if i st <? N
      then st' <- sweep fuel N (seq 0 dim) st ;; chain_loop fuel N dim n' st'
      else Ret st
  end.

(** Lines 30-40.  [np.zeros] raises ValueError on a negative dimension;
    [x1], [L] and [R] are allocated there too but assigned before they are
    read.  The arrays are lists: the limits of memory and of the size of a
    numpy array are left out. *)
Definition slicer_init (dim : Z) (x0 : vec) (N : Z) : res state :=
  if (N <? 0)%Z || (dim <? 0)%Z then Raise ValueError
  else
    let xs := repeat (repeat fzero (Z.to_nat dim)) (Z.to_nat N) in
    xs' <- set_row 0 x0 xs ;;
    let likelies := repeat fzero (Z.to_nat N) in
    likelies' <- set_item 0 (g x0 xargs) likelies ;;
    Ret (mkState xs' likelies' x0 (repeat fzero (Z.to_nat dim)) 1 0).

(** The state in which [slicer] returns. *)
Definition slicer_run (fuel : nat) (dim : Z) (x0 : vec) (N : Z) : res state :=
  st <- slicer_init dim x0 N ;;
  chain_loop fuel (Z.to_nat N) (Z.to_nat dim) fuel st.

(** [slicer(g, dim, x0, xargs, N, w, m)]: returns [(xs, likelies)]. *)
Definition slicer (fuel : nat) (dim : Z) (x0 : vec) (N : Z)
  : res (list vec * list F) :=
  st <- slicer_run fuel dim x0 N ;;
  Ret (xs st, likelies st).

(** The coordinate steps of a run, one after the other with no test of [i]:
    the loop nest of [slicer] performs [steps] over [dirs] (see
    [chain_loop_steps]). *)
Fixpoint steps (fuel : nat) (ds : list nat) (st : state) : res state :=
  match ds with
  | [] => Ret st
  | d :: ds' => st' <- coord_step fuel d st ;; steps fuel ds' st'
  end.

(** Coordinates of the steps number [a+1], ..., [a+n] of a run. *)
Definition dirs (dim : nat) (a n : nat) : list nat :=
  map (fun t => t mod dim) (seq a n).

(** The state after the first [t] coordinate steps of a run. *)
Definition state_after (fuel : nat) (dim : Z) (x0 : vec) (N : Z) (t : nat)
  : res state :=
  st <- slicer_init dim x0 N ;;
  steps fuel (dirs (Z.to_nat dim) 0 t) st.

End Slicer.

Arguments state F : clear implicits.

(** The shape of the arrays once [slicer_init] has run. *)
Record wf {F : Type} (N dim : nat) (st : state F) : Prop := {
  wf_xs : length (xs st) = N;
  wf_rows : Forall (fun r => length r = dim) (xs st);
  wf_lik : length (likelies st) = N;
  wf_x0 : length (x0 st) = dim;
  wf_way : length (way st) = dim;
  wf_i : 1 <= i st;
  wf_cur : nth (i st - 1) (xs st) [] = x0 st
}.

(** Inputs the signature of [slicer] asks for. *)
Definition valid {F : Type} (dim : Z) (x0 : list F) (N : Z) : Prop :=
  (1 <= N)%Z /\ (1 <= dim)%Z /\ length x0 = Z.to_nat dim.

(** A state seen through the first [n] rows of its arrays. *)
Definition truncate {F : Type} (n : nat) (st : state F) : state F :=
  mkState (firstn n (xs st)) (firstn n (likelies st))
    (x0 st) (way st) (i st) (draws st).

(** ** IEEE binary64, the [np.float64] of the source *)

Module B64.

Definition prec : Z := 53.
Definition emax : Z := 1024.

Definition zero : spec_float := S754_zero false.
Definition one : spec_float := S754_finite false 4503599627370496 (-52).
Definition half : spec_float := S754_finite false 4503599627370496 (-53).
Definition nan : spec_float := S754_nan.

Definition of_Z (z : Z) : spec_float := binary_normalize prec emax z 0 false.

(** [np.floor]: a finite value with a negative exponent is [m / 2^(-e)];
    values with exponent [>= 0], zeros, infinities and NaN are returned as
    they are. *)
Definition floor (x : spec_float) : spec_float :=
  match x with
  | S754_finite s m e =>
      if (0 <=? e)%Z then x
      else
        let q := Z.shiftr (Zpos m) (- e) in
        let exact := (Z.shiftl q (- e) =? Zpos m)%Z in
        let z := if s then (if exact then - q else - q - 1)%Z else q in
        binary_normalize prec emax z 0 s
  | _ => x
  end.

(** The operations of binary64; [np.log] is left to the caller. *)
Definition num (ln : spec_float -> spec_float) : Num spec_float := {|
  fzero := zero;
  fone := one;
  fadd := SFadd prec emax;
  fsub := SFsub prec emax;
  fmul := SFmul prec emax;
  fltb := SFltb;
  ffloor := floor;
  flog := ln;
  of_int := of_Z
|}.

(** [np.log(0.5)] is -0.6931471805599453 and [np.log(0.25)] twice that; the
    other arguments are not tabulated. *)
Definition ln_half : spec_float := S754_finite true 6243314768165359 (-53).

Definition log_table (u : spec_float) : spec_float :=
  match u with
  | S754_finite false 4503599627370496 (-53)%Z => ln_half
  | S754_finite false 4503599627370496 (-54)%Z =>
      S754_finite true 6243314768165359 (-52)
  | _ => S754_nan
  end.

End B64.

(** ** Rationals: the same operations without rounding *)

Module Rat.

Definition ltb (a b : Qc) : bool :=
  match Qccompare a b with
  | Lt => true
  | _ => false
  end.

Definition of_Z (z : Z) : Qc := Q2Qc (inject_Z z).

Definition floor (a : Qc) : Qc := of_Z (Qfloor a).

Definition num (ln : Qc -> Qc) : Num Qc := {|
  fzero := Q2Qc 0;
  fone := Q2Qc 1;
  fadd := Qcplus;
  fsub := Qcminus;
  fmul := Qcmult;
  fltb := ltb;
  ffloor := floor;
  flog := ln;
  of_int := of_Z
|}.

Definition half : Qc := Q2Qc (1 # 2).
Definition quarter : Qc := Q2Qc (1 # 4).

(** [np.log] is not rational; the runs over [Qc] below use its tangent at 1
    in its place. *)
Definition log_lin (u : Qc) : Qc := Qcminus u (Q2Qc 1).

End Rat.

(** ** Arithmetic without rounding

    The laws of an ordered commutative ring for the operations of [Num],
    with [np.floor] the integer part.  [Rat.num] satisfies them
    ([Rat_exact]); [B64.num] does not. *)

Class ExactArith (F : Type) {NF : Num F} : Prop := {
  ea_ring :
    ring_theory fzero fone fadd fmul fsub (fun a => fsub fzero a) (@eq F);
  ea_lt_irrefl : forall a, fltb a a = false;
  ea_lt_trans : forall a b c,
      fltb a b = true -> fltb b c = true -> fltb a c = true;
  ea_lt_total : forall a b, fltb a b = false -> fltb b a = false -> a = b;
  ea_add_lt : forall a b c,
      fltb a b = true -> fltb (fadd a c) (fadd b c) = true;
  ea_mul_pos : forall a b,
      fltb fzero a = true -> fltb fzero b = true ->
      fltb fzero (fmul a b) = true;
  ea_one_pos : fltb fzero fone = true;
  ea_of_int_0 : of_int 0 = fzero;
  ea_of_int_succ : forall z, of_int (z + 1) = fadd (of_int z) fone;
  ea_floor : forall x, exists z,
      ffloor x = of_int z /\
      fltb x (of_int z) = false /\ fltb x (of_int (z + 1)) = true
}.

(** ** A run in binary64

    The standard normal log-density [-(x.x)/2] in two dimensions, started at
    [(1, 0)] with [w = 0.5], [m = 10] and [N = 4], on a uniform source that
    alternates 0.5 and 0.25. *)

Module Demo.

Import B64.

Definition quarter : spec_float := S754_finite false 4503599627370496 (-54).
Definition minus_half : spec_float := S754_finite true 4503599627370496 (-53).

Definition gauss (v : list spec_float) (_ : unit) : spec_float :=
  SFmul prec emax minus_half
    (fold_left (fun acc x => SFadd prec emax acc (SFmul prec emax x x)) v zero).

Definition rand (k : nat) : spec_float := if Nat.even k then half else quarter.

Definition start : list spec_float := [one; zero].

Definition run (fuel : nat) (w : spec_float) (m dim N : Z)
  : res (list (list spec_float) * list spec_float) :=
  slicer (NF := num log_table) rand gauss tt w m fuel dim start N.

Definition chain : list (list spec_float) :=
  Eval vm_compute in
    match run 30 half 10 2 4 with Ret (c, _) => c | _ => [] end.

Definition lik : list spec_float :=
  Eval vm_compute in
    match run 30 half 10 2 4 with Ret (_, l) => l | _ => [] end.

End Demo.

(** ** The same run over the rationals *)

Module RDemo.

Import Rat.

Definition gauss (v : list Qc) (_ : unit) : Qc :=
  Qcmult (Qcopp half)
    (fold_left (fun acc x => Qcplus acc (Qcmult x x)) v (Q2Qc 0)).

Definition rand (k : nat) : Qc := if Nat.even k then half else quarter.

Definition start : list Qc := [Q2Qc 1; Q2Qc 0].

Definition run (fuel : nat) (w : Qc) (m dim N : Z)
  : res (list (list Qc) * list Qc) :=
  slicer (NF := num log_lin) rand gauss tt w m fuel dim start N.

Definition chain : list (list Qc) :=
  Eval vm_compute in
    match run 30 half 10 2 4 with Ret (c, _) => c | _ => [] end.

Definition lik : list Qc :=
  Eval vm_compute in
    match run 30 half 10 2 4 with Ret (_, l) => l | _ => [] end.

(** A flat log-density. *)
Definition flat (v : list Qc) (_ : unit) : Qc := Q2Qc 0.

(** The first step-out of that run, along coordinate 0. *)
Definition first_step_out
  : res ((list Qc * Qc) * (list Qc * Qc)) :=
  step_out (NF := num log_lin) gauss tt half 10 30 start
    (set_way (NF := num log_lin) 0 [Q2Qc 0; Q2Qc 0])
    (Qcplus (gauss start tt) (log_lin (rand 0))) (rand 1) (rand 2).

Definition first_bracket : (list Qc * Qc) * (list Qc * Qc) :=
  Eval vm_compute in
    match first_step_out with
    | Ret b => b
    | _ => (([], Q2Qc 0), ([], Q2Qc 0))
    end.

End RDemo.

(** ** Inputs on which binary64 rounds *)

Module Rounding.

Import B64.




(** A log-density that is 0.0 everywhere, and a run from a point with an
    infinite component. *)
Definition flat (v : list spec_float) (_ : unit) : spec_float := zero.

Definition run_inf : res (list (list spec_float) * list spec_float) :=
  slicer (NF := num log_table) Demo.rand flat tt half 10 30 2
    [one; S754_infinity false] 2.

End Rounding.

(** ** Finite values of binary64 *)

(** Neither NaN nor an infinity. *)
Definition b64_finite (x : spec_float) : bool :=
  match x with
  | S754_zero _ | S754_finite _ _ _ => true
  | _ => false
  end.

(** The same finite value: the same float, or two zeros of any sign. *)
Definition b64_same (a b : spec_float) : Prop :=
  (a = b /\ b64_finite a = true) \/
  (exists s s', a = S754_zero s /\ b = S754_zero s').

(** ** Python ints in float arithmetic

    [m*V] (line 53) and [(m - 1) - J] (line 54) convert the int to a float
    before they compute.  For an int whose nearest float is not finite
    Python raises OverflowError instead.  [of_int] is total and [exn] has
    the two exceptions of the array assignments only: the embedding is of
    the runs whose [m] and [m - 1] convert, and what is proved about the
    exceptions of a run is proved for those. *)
Definition int_converts (z : Z) : bool := b64_finite (B64.of_Z z).

(** * Arrays *)

Lemma bind_Ret {A B : Type} (c : res A) (k : A -> res B) (b : B) :
  bind c k = Ret b -> exists a, c = Ret a /\ k a = Ret b.
Proof.
  destruct c as [a | e |]; simpl; intros H; try discriminate.
  exists a; split; [reflexivity | exact H].
Qed.

Lemma bind_Raise {A B : Type} (c : res A) (k : A -> res B) (e : exn) :
  bind c k = Raise e ->
  c = Raise e \/ exists a, c = Ret a /\ k a = Raise e.
Proof.
  destruct c as [a | e' |]; simpl; intros H; try discriminate.
  - right; exists a; split; [reflexivity | exact H].
  - left; inversion H; reflexivity.
Qed.

Lemma length_upd {A : Type} (i : nat) (v : A) (l : list A) :
  length (upd i v l) = length l.
Proof.
  revert i; induction l as [| h t IH]; intros [| j]; simpl; auto.
Qed.

Lemma nth_upd_eq {A : Type} (i : nat) (v d : A) (l : list A) :
  i < length l -> nth i (upd i v l) d = v.
Proof.
  revert i; induction l as [| h t IH]; intros [| j]; simpl; intros H;
    try lia; auto.
  apply IH; lia.
Qed.

Lemma nth_upd_neq {A : Type} (i j : nat) (v d : A) (l : list A) :
  i <> j -> nth j (upd i v l) d = nth j l d.
Proof.
  revert i j; induction l as [| h t IH]; intros [| i] [| j] H; simpl;
    try reflexivity; try congruence.
  apply IH; congruence.
Qed.

Lemma Forall_upd {A : Type} (P : A -> Prop) (i : nat) (v : A) (l : list A) :
  P v -> Forall P l -> Forall P (upd i v l).
Proof.
  intros Hv Hl; revert i; induction Hl as [| h t Hh Ht IH]; intros [| j];
    simpl; constructor; auto.
Qed.

Lemma length_zipwith {A : Type} (f : A -> A -> A) (a b : list A) :
  length a = length b -> length (zipwith f a b) = length a.
Proof.
  revert b; induction a as [| x a IH]; intros [| y b]; simpl; intros H;
    try discriminate; auto.
Qed.

Lemma nth_zipwith {A : Type} (f : A -> A -> A) (a b : list A) (j : nat)
  (d : A) :
  length a = length b -> j < length a ->
  nth j (zipwith f a b) d = f (nth j a d) (nth j b d).
Proof.
  revert b j; induction a as [| x a IH]; intros [| y b] [| j]; simpl;
    intros H Hj; try discriminate; try lia; auto.
  apply IH; lia.
Qed.

Lemma bcast_zipwith {A : Type} (f : A -> A -> A) (a b : list A) :
  length a = length b -> bcast f a b = zipwith f a b.
Proof.
  destruct a as [| x [| x' a]]; destruct b as [| y [| y' b]]; simpl;
    intros H; try discriminate; reflexivity.
Qed.

Lemma length_bcast {A : Type} (f : A -> A -> A) (a b : list A) :
  length a = length b -> length (bcast f a b) = length a.
Proof.
  intros H; rewrite bcast_zipwith by exact H; apply length_zipwith; exact H.
Qed.

Lemma nth_bcast {A : Type} (f : A -> A -> A) (a b : list A) (j : nat) (d : A) :
  length a = length b -> j < length a ->
  nth j (bcast f a b) d = f (nth j a d) (nth j b d).
Proof.
  intros H Hj; rewrite bcast_zipwith by exact H; apply nth_zipwith; assumption.
Qed.

Lemma nth_map_in {A : Type} (f : A -> A) (l : list A) (j : nat) (d : A) :
  j < length l -> nth j (map f l) d = f (nth j l d).
Proof.
  intros Hj; rewrite (nth_indep _ d (f d)) by (rewrite length_map; exact Hj).
  apply map_nth.
Qed.

Lemma set_row_Ret {A : Type} (i : nat) (v : list A) (xs xs' : list (list A))
  (dim : nat) :
  Forall (fun r => length r = dim) xs -> length v = dim ->
  set_row i v xs = Ret xs' -> i < length xs /\ xs' = upd i v xs.
Proof.
  intros Hrows Hv; unfold set_row.
  destruct (nth_error xs i) as [row |] eqn:E; [| discriminate].
  assert (Hi : i < length xs) by (apply nth_error_Some; congruence).
  assert (Hrow : length row = dim).
  { rewrite Forall_forall in Hrows; apply Hrows.
    eapply nth_error_In; exact E. }
  rewrite Hv, Hrow, Nat.eqb_refl; intros H; inversion H; auto.
Qed.

Lemma set_row_ok {A : Type} (i : nat) (v : list A) (xs : list (list A))
  (dim : nat) :
  Forall (fun r => length r = dim) xs -> length v = dim -> i < length xs ->
  set_row i v xs = Ret (upd i v xs).
Proof.
  intros Hrows Hv Hi; unfold set_row.
  destruct (nth_error xs i) as [row |] eqn:E.
  - assert (Hrow : length row = dim).
    { rewrite Forall_forall in Hrows; apply Hrows.
      eapply nth_error_In; exact E. }
    rewrite Hv, Hrow, Nat.eqb_refl; reflexivity.
  - apply nth_error_None in E; lia.
Qed.

Lemma set_item_ok {A : Type} (i : nat) (v : A) (l : list A) :
  i < length l -> set_item i v l = Ret (upd i v l).
Proof.
  intros Hi; unfold set_item.
  destruct (nth_error l i) eqn:E; [reflexivity |].
  apply nth_error_None in E; lia.
Qed.

Lemma set_item_Ret {A : Type} (i : nat) (v : A) (l l' : list A) :
  set_item i v l = Ret l' -> i < length l /\ l' = upd i v l.
Proof.
  unfold set_item; destruct (nth_error l i) eqn:E; [| discriminate].
  intros H; inversion H; split; [| reflexivity].
  apply nth_error_Some; congruence.
Qed.

(** * One coordinate step *)

Section Step.

Context {F : Type} {NF : Num F} {X : Type}.
Variable rand : nat -> F.
Variable g : list F -> X -> F.
Variable xargs : X.
Variable w : F.
Variable m : Z.


Lemma step_out_left_length fuel way y L J L' J' :
  length L = length way ->
  step_out_left g xargs w fuel way y L J = Ret (L', J') -> length L' = length L.
Proof.
  revert L J; induction fuel as [| fuel IH]; simpl; intros L J HL H;
    [discriminate |].
  destruct (fltb fzero J && fltb y (g L xargs)).
  - apply IH in H.
    + rewrite H; apply length_bcast; rewrite length_map; exact HL.
    + rewrite length_bcast by (rewrite length_map; exact HL); exact HL.
  - inversion H; reflexivity.
Qed.

Lemma step_out_right_length fuel way y R K R' K' :
  length R = length way ->
  step_out_right g xargs w fuel way y R K = Ret (R', K') ->
  length R' = length R.
Proof.
  revert R K; induction fuel as [| fuel IH]; simpl; intros R K HR H;
    [discriminate |].
  destruct (fltb fzero K && fltb y (g R xargs)).
  - apply IH in H.
    + rewrite H; apply length_bcast; rewrite length_map; exact HR.
    + rewrite length_bcast by (rewrite length_map; exact HR); exact HR.
  - inversion H; reflexivity.
Qed.

Lemma length_bracket_L x way U :
  length x = length way -> length (bracket_L w x way U) = length x.
Proof.
  intros H; unfold bracket_L; apply length_bcast.
  rewrite !length_map; exact H.
Qed.

Lemma length_bracket_R L way :
  length L = length way -> length (bracket_R w L way) = length L.
Proof.
  intros H; unfold bracket_R; apply length_bcast.
  rewrite length_map; exact H.
Qed.

Lemma step_out_length fuel x way y U V L J R K :
  length x = length way ->
  step_out g xargs w m fuel x way y U V = Ret ((L, J), (R, K)) ->
  length L = length x /\ length R = length x.
Proof.
  intros Hx H; unfold step_out in H.
  apply bind_Ret in H; destruct H as [[L1 J1] [HL H]].
  apply bind_Ret in H; destruct H as [[R1 K1] [HR H]].
  inversion H; subst; clear H.
  apply step_out_left_length in HL;
    [| rewrite length_bracket_L; assumption].
  apply step_out_right_length in HR;
    [| rewrite length_bracket_R; rewrite length_bracket_L; assumption].
  rewrite length_bracket_L in HL by assumption.
  rewrite length_bracket_R, length_bracket_L in HR
    by (try rewrite length_bracket_L; assumption).
  auto.
Qed.

(** The shrinkage loop leaves only through the [break]: with a candidate
    above the slice height, having made at least one draw. *)
Lemma shrink_accepts fuel d x y Lbar Rbar k x1 k' :
  length Lbar = length Rbar ->
  shrink rand g xargs fuel d x y Lbar Rbar k = Ret (x1, k') ->
  fltb y (g x1 xargs) = true /\ length x1 = length Lbar /\ k < k'.
Proof.
  revert Lbar Rbar k; induction fuel as [| fuel IH]; simpl;
    intros Lbar Rbar k Hlen H; [discriminate |].
  set (c := bcast fadd Lbar (map (fmul (rand k)) (bcast fsub Rbar Lbar))) in *.
  assert (Hc : length c = length Lbar).
  { unfold c; apply length_bcast.
    rewrite length_map, length_bcast; auto. }
  destruct (fltb y (g c xargs)) eqn:Hacc.
  - inversion H; subst; auto.
  - destruct (fltb (nth d c fzero) (nth d x fzero)).
    + apply IH in H; [| congruence].
      destruct H as (H1 & H2 & H3); repeat split; auto; try congruence; lia.
    + apply IH in H; [| congruence].
      destruct H as (H1 & H2 & H3); repeat split; auto; lia.
Qed.

Lemma length_set_way d way : length (set_way d way) = length way.
Proof. unfold set_way; rewrite length_upd, length_map; reflexivity. Qed.

(** What one coordinate step does to a well-formed state. *)
Lemma coord_step_spec N dim fuel d st st' :
  wf N dim st -> i st < N ->
  coord_step rand g xargs w m fuel d st = Ret st' ->
  wf N dim st' /\
  i st' = S (i st) /\
  draws st + 4 <= draws st' /\
  xs st' = upd (i st) (x0 st') (xs st) /\
  likelies st' = upd (i st) (g (x0 st) xargs) (likelies st) /\
  way st' = set_way d (way st) /\
  fltb (height rand g xargs st) (g (x0 st') xargs) = true.
Proof.
  intros Hwf Hi H; destruct Hwf as [Hxs Hrows Hlik Hx0 Hway Hi1 Hcur].
  unfold coord_step in H.
  apply bind_Ret in H; destruct H as [[[L J] [R K]] [Hso H]].
  apply bind_Ret in H; destruct H as [[x1 k'] [Hsh H]].
  apply bind_Ret in H; destruct H as [xs' [Hrow H]].
  apply bind_Ret in H; destruct H as [lk' [Hitem H]].
  simpl in *.
  apply step_out_length in Hso;
    [| rewrite length_set_way; congruence].
  destruct Hso as [HL HR].
  apply shrink_accepts in Hsh; [| congruence].
  destruct Hsh as (Hacc & Hx1 & Hk).
  assert (Hx1d : length x1 = dim) by congruence.
  apply (set_row_Ret _ _ _ _ dim) in Hrow; auto.
  destruct Hrow as [_ ->].
  apply set_item_Ret in Hitem; destruct Hitem as [_ ->].
  injection H as <-; simpl.
  split; [constructor; simpl |]; repeat split; auto.
  - rewrite length_upd; exact Hxs.
  - apply Forall_upd; auto.
  - rewrite length_upd; exact Hlik.
  - rewrite length_set_way; exact Hway.
  - rewrite Nat.sub_0_r; apply nth_upd_eq; lia.
  - lia.
Qed.

(** The loops themselves raise nothing. *)
Lemma step_out_left_no_raise fuel way y L J e :
  step_out_left g xargs w fuel way y L J <> Raise e.
Proof.
  revert L J; induction fuel as [| fuel IH]; simpl; intros L J;
    [discriminate |].
  destruct (fltb fzero J && fltb y (g L xargs)); [apply IH | discriminate].
Qed.

Lemma step_out_right_no_raise fuel way y R K e :
  step_out_right g xargs w fuel way y R K <> Raise e.
Proof.
  revert R K; induction fuel as [| fuel IH]; simpl; intros R K;
    [discriminate |].
  destruct (fltb fzero K && fltb y (g R xargs)); [apply IH | discriminate].
Qed.

Lemma shrink_no_raise fuel d x y Lbar Rbar k e :
  shrink rand g xargs fuel d x y Lbar Rbar k <> Raise e.
Proof.
  revert Lbar Rbar k; induction fuel as [| fuel IH]; simpl;
    intros Lbar Rbar k; [discriminate |].
  destruct (fltb y (g _ xargs)); [discriminate |].
  destruct (fltb (nth d _ fzero) (nth d x fzero)); apply IH.
Qed.

(** A coordinate step of a well-formed state raises nothing. *)
Lemma coord_step_no_raise N dim fuel d st e :
  wf N dim st -> i st < N -> coord_step rand g xargs w m fuel d st <> Raise e.
Proof.
  intros Hwf Hi H; destruct Hwf as [Hxs Hrows Hlik Hx0 Hway Hi1 Hcur].
  unfold coord_step in H.
  apply bind_Raise in H; destruct H as [H | [[[L J] [R K]] [Hso H]]].
  { unfold step_out in H.
    apply bind_Raise in H; destruct H as [H | [LJ [_ H]]].
    - eapply step_out_left_no_raise; exact H.
    - apply bind_Raise in H; destruct H as [H | [RK [_ H]]]; [| discriminate].
      eapply step_out_right_no_raise; exact H. }
  apply bind_Raise in H; destruct H as [H | [[x1 k'] [Hsh H]]].
  { eapply shrink_no_raise; exact H. }
  simpl in *.
  apply step_out_length in Hso; [| rewrite length_set_way; congruence].
  destruct Hso as [HL HR].
  apply shrink_accepts in Hsh; [| congruence].
  destruct Hsh as (_ & Hx1 & _).
  rewrite (set_row_ok _ _ _ dim) in H; [| assumption | congruence | lia].
  rewrite set_item_ok in H by lia.
  simpl in H; discriminate.
Qed.

(** A coordinate step of a well-formed state returns when its step-out and
    then its shrinkage do: the two assignments that follow are in range. *)
Lemma coord_step_searches N dim fuel d st LR r :
  wf N dim st -> i st < N ->
  step_out g xargs w m fuel (x0 st) (set_way d (way st))
    (height rand g xargs st) (rand (1 + draws st)) (rand (2 + draws st))
    = Ret LR ->
  shrink rand g xargs fuel d (x0 st) (height rand g xargs st)
    (fst (fst LR)) (fst (snd LR)) (3 + draws st) = Ret r ->
  exists st', coord_step rand g xargs w m fuel d st = Ret st'.
Proof.
  intros Hwf Hi Hso Hsh; destruct Hwf as [Hxs Hrows Hlik Hx0 Hway Hi1 Hcur].
  unfold coord_step; unfold height in Hso, Hsh.
  rewrite Hso; cbn [bind]; rewrite Hsh; cbn [bind].
  destruct LR as [[L J] [R K]]; destruct r as [x1 k']; cbn [fst snd] in *.
  apply step_out_length in Hso; [| rewrite length_set_way; congruence].
  destruct Hso as [HL HR].
  apply shrink_accepts in Hsh; [| congruence].
  destruct Hsh as (_ & Hx1 & _).
  rewrite (set_row_ok _ _ _ dim); [| assumption | congruence | lia].
  rewrite set_item_ok by lia.
  cbn [bind]; eauto.
Qed.

End Step.

(** * The loop nest *)

Section Run.

Context {F : Type} {NF : Num F} {X : Type}.
Variable rand : nat -> F.
Variable g : list F -> X -> F.
Variable xargs : X.
Variable w : F.
Variable m : Z.


Lemma bind_ret_r {A : Type} (c : res A) : bind c Ret = c.
Proof. destruct c; reflexivity. Qed.

Lemma coord_step_i fuel d st st' :
  coord_step rand g xargs w m fuel d st = Ret st' -> i st' = S (i st).
Proof.
  unfold coord_step; intros H.
  apply bind_Ret in H; destruct H as [LR [_ H]].
  apply bind_Ret in H; destruct H as [x1k [_ H]].
  apply bind_Ret in H; destruct H as [xs' [_ H]].
  apply bind_Ret in H; destruct H as [lk' [_ H]].
  injection H as <-; reflexivity.
Qed.

Lemma steps_app fuel l1 l2 st :
  steps rand g xargs w m fuel (l1 ++ l2) st =
  (st1 <- steps rand g xargs w m fuel l1 st ;;
   steps rand g xargs w m fuel l2 st1).
Proof.
  revert st; induction l1 as [| d l1 IH]; simpl; intros st; [reflexivity |].
  destruct (coord_step rand g xargs w m fuel d st) as [st1 | e |]; simpl; auto.
Qed.

Lemma steps_one fuel d st :
  steps rand g xargs w m fuel [d] st = coord_step rand g xargs w m fuel d st.
Proof. simpl; apply bind_ret_r. Qed.

(** A sweep is a run of coordinate steps over a prefix of its coordinates:
    all of them, or those taken until row [N] was filled. *)
Lemma sweep_steps fuel N ds st st' :
  i st < N -> sweep rand g xargs w m fuel N ds st = Ret st' ->
  exists ds1 ds2,
    ds = ds1 ++ ds2 /\ steps rand g xargs w m fuel ds1 st = Ret st' /\
    i st' = i st + length ds1 /\ i st' <= N /\
    (ds2 = [] \/ i st' = N).
Proof.
  revert st; induction ds as [| d ds IH]; simpl; intros st Hi H.
  - injection H as <-; exists [], []; simpl; repeat split; auto; lia.
  - apply bind_Ret in H; destruct H as [st1 [Hstep H]].
    pose proof (coord_step_i _ _ _ _ Hstep) as Hi1.
    destruct (N <=? i st1) eqn:Hb.
    + injection H as <-; apply Nat.leb_le in Hb.
      exists [d], ds; simpl; rewrite Hstep; simpl.
      repeat split; auto; lia.
    + apply Nat.leb_gt in Hb.
      destruct (IH st1 Hb H) as (ds1 & ds2 & -> & Hs & Hl & Hle & Hend).
      exists (d :: ds1), ds2; simpl; rewrite Hstep; simpl.
      repeat split; auto; lia.
Qed.

Lemma dirs_app dim a n1 n2 :
  dirs dim a (n1 + n2) = dirs dim a n1 ++ dirs dim (a + n1) n2.
Proof. unfold dirs; rewrite seq_app, map_app; reflexivity. Qed.

Lemma dirs_one dim a : dirs dim a 1 = [a mod dim].
Proof. reflexivity. Qed.

Lemma length_dirs dim a n : length (dirs dim a n) = n.
Proof. unfold dirs; rewrite length_map, length_seq; reflexivity. Qed.

(** From the head of a sweep the coordinates are 0, 1, 2, ... *)
Lemma dirs_aligned dim a c :
  a mod dim = 0 -> c <= dim -> dirs dim a c = seq 0 c.
Proof.
  intros Ha; unfold dirs.
  assert (H : forall c o, o + c <= dim ->
                          map (fun t => t mod dim) (seq (a + o) c) = seq o c).
  { clear c; induction c as [| c IH]; simpl; intros o Ho; [reflexivity |].
    f_equal.
    - rewrite Nat.Div0.add_mod, Ha; simpl.
      rewrite Nat.Div0.mod_mod; apply Nat.mod_small; lia.
    - replace (S (a + o)) with (a + S o) by lia; apply IH; lia. }
  intros Hc; specialize (H c 0); rewrite Nat.add_0_r in H; apply H; lia.
Qed.

Lemma seq_prefix a n (l1 l2 : list nat) :
  seq a n = l1 ++ l2 -> l1 = seq a (length l1).
Proof.
  revert a n; induction l1 as [| x l1 IH]; simpl; intros a n H;
    [reflexivity |].
  destruct n as [| n]; simpl in H; [discriminate |].
  injection H as -> H; f_equal; eapply IH; exact H.
Qed.

(** The [while]/[for]/[break] nest performs the coordinate steps number
    [i], ..., [N-1], cycling through the coordinates, and stops with
    [i = N]. *)
Lemma chain_loop_steps fuel N dim n st st' :
  1 <= i st <= N -> (i st - 1) mod dim = 0 ->
  chain_loop rand g xargs w m fuel N dim n st = Ret st' ->
  steps rand g xargs w m fuel (dirs dim (i st - 1) (N - i st)) st = Ret st' /\
  i st' = N.
Proof.
  revert st; induction n as [| n IH]; simpl; intros st Hi Hal H;
    [discriminate |].
  destruct (i st <? N) eqn:Hb.
  - apply Nat.ltb_lt in Hb.
    apply bind_Ret in H; destruct H as [st1 [Hsw H]].
    apply sweep_steps in Hsw; [| exact Hb].
    destruct Hsw as (ds1 & ds2 & Hds & Hs & Hl & Hle & Hend).
    assert (Hlen : length ds1 + length ds2 = dim).
    { rewrite <- length_app, <- Hds, length_seq; reflexivity. }
    destruct Hend as [-> | HN].
    + rewrite app_nil_r in Hds; subst ds1; rewrite length_seq in *.
      apply IH in H.
      * destruct H as [H HN]; split; [| exact HN].
        replace (N - i st) with (dim + (N - i st1)) by lia.
        rewrite dirs_app, steps_app, dirs_aligned by (auto; lia).
        rewrite Hs; simpl.
        replace (i st - 1 + dim) with (i st1 - 1) by lia; exact H.
      * lia.
      * replace (i st1 - 1) with (i st - 1 + dim) by lia.
        rewrite Nat.Div0.add_mod, Hal, Nat.Div0.mod_same; simpl.
        apply Nat.Div0.mod_0_l.
    + assert (st' = st1).
      { destruct n as [| n]; simpl in H; [discriminate |].
        replace (i st1 <? N) with false in H
          by (symmetry; apply Nat.ltb_ge; lia).
        injection H as <-; reflexivity. }
      subst st'; split; [| exact HN].
      rewrite dirs_aligned by (auto; lia).
      pose proof (seq_prefix _ _ _ _ Hds) as Hpre.
      replace (N - i st) with (length ds1) by lia.
      rewrite <- Hpre; exact Hs.
  - apply Nat.ltb_ge in Hb; injection H as <-.
    replace (N - i st) with 0 by lia; simpl; split; [reflexivity | lia].
Qed.

(** Coordinate steps keep the arrays well-formed and leave the rows below
    the starting [i] as they are. *)
Lemma steps_spec N dim fuel ds st st' :
  wf N dim st -> i st + length ds <= N ->
  steps rand g xargs w m fuel ds st = Ret st' ->
  wf N dim st' /\
  i st' = i st + length ds /\
  draws st + 4 * length ds <= draws st' /\
  (forall j, j < i st ->
             nth j (xs st') [] = nth j (xs st) [] /\
             nth j (likelies st') fzero = nth j (likelies st) fzero).
Proof.
  revert st; induction ds as [| d ds IH]; simpl; intros st Hwf Hi H.
  - injection H as <-; split; [exact Hwf |]; repeat split; auto; lia.
  - apply bind_Ret in H; destruct H as [st1 [Hstep H]].
    apply (coord_step_spec _ _ _ _ _ N dim) in Hstep; [| exact Hwf | lia].
    destruct Hstep as (Hwf1 & Hi1 & Hd1 & Hxs1 & Hlk1 & _).
    apply IH in H; [| exact Hwf1 | lia].
    destruct H as (Hwf' & Hi' & Hd' & Hfr).
    split; [exact Hwf' |]; repeat split; auto; try lia.
    + destruct (Hfr j ltac:(lia)) as [-> _].
      rewrite Hxs1; apply nth_upd_neq; lia.
    + destruct (Hfr j ltac:(lia)) as [_ ->].
      rewrite Hlk1; apply nth_upd_neq; lia.
Qed.

Lemma steps_no_raise N dim fuel ds st e :
  wf N dim st -> i st + length ds <= N ->
  steps rand g xargs w m fuel ds st <> Raise e.
Proof.
  revert st; induction ds as [| d ds IH]; simpl; intros st Hwf Hi H;
    [discriminate |].
  apply bind_Raise in H; destruct H as [H | [st1 [Hstep H]]].
  - eapply coord_step_no_raise; eauto; lia.
  - apply (coord_step_spec _ _ _ _ _ N dim) in Hstep; [| exact Hwf | lia].
    destruct Hstep as (Hwf1 & Hi1 & _).
    eapply IH; eauto; lia.
Qed.

Lemma steps_i fuel ds st st' :
  steps rand g xargs w m fuel ds st = Ret st' -> i st' = i st + length ds.
Proof.
  revert st; induction ds as [| d ds IH]; simpl; intros st H.
  - injection H as <-; lia.
  - apply bind_Ret in H; destruct H as [st1 [Hstep H]].
    apply coord_step_i in Hstep; apply IH in H; lia.
Qed.

(** Conversely, the [for] loop makes the coordinate steps it is given, when
    they are a whole sweep or end with row [N - 1] filled. *)
Lemma steps_sweep fuel N ds1 ds2 st st1 :
  steps rand g xargs w m fuel ds1 st = Ret st1 ->
  i st + length ds1 <= N ->
  ds2 = [] \/ (i st + length ds1 = N /\ ds1 <> []) ->
  sweep rand g xargs w m fuel N (ds1 ++ ds2) st = Ret st1.
Proof.
  revert st; induction ds1 as [| d ds1 IH]; simpl; intros st H Hle Hc.
  - injection H as <-.
    destruct Hc as [-> | [_ Hc]]; [reflexivity | congruence].
  - apply bind_Ret in H; destruct H as [sta [Hstep H]].
    rewrite Hstep; cbn [bind].
    apply coord_step_i in Hstep.
    destruct (N <=? i sta) eqn:Hb.
    + apply Nat.leb_le in Hb.
      destruct ds1 as [| d' ds1]; [| simpl in Hle; lia].
      simpl in H; exact H.
    + apply Nat.leb_gt in Hb.
      apply IH; [exact H | lia |].
      destruct Hc as [-> | [HN _]]; [left; reflexivity | right].
      split; [lia |].
      destruct ds1; [simpl in HN; lia | discriminate].
Qed.

(** The coordinate steps number [i], ..., [N-1] are what the loop nest does,
    given enough passes of the [while] loop. *)
Lemma steps_chain_loop fuel N dim n st st' :
  1 <= dim -> 1 <= i st <= N -> (i st - 1) mod dim = 0 -> N - i st < n ->
  steps rand g xargs w m fuel (dirs dim (i st - 1) (N - i st)) st = Ret st' ->
  chain_loop rand g xargs w m fuel N dim n st = Ret st'.
Proof.
  intros Hdim; revert st; induction n as [| n IH]; intros st Hi Hal Hn H;
    [lia |].
  simpl; destruct (i st <? N) eqn:Hb.
  - apply Nat.ltb_lt in Hb.
    destruct (le_lt_dec dim (N - i st)) as [Hc | Hc].
    + replace (N - i st) with (dim + (N - i st - dim)) in H by lia.
      rewrite dirs_app, steps_app in H.
      apply bind_Ret in H; destruct H as [st1 [Hs1 H]].
      rewrite dirs_aligned in Hs1 by (auto; lia).
      pose proof (steps_i _ _ _ _ Hs1) as Hi1; rewrite length_seq in Hi1.
      pose proof (steps_sweep fuel N (seq 0 dim) [] st st1 Hs1
                    ltac:(rewrite length_seq; lia) (or_introl eq_refl)) as Hsw.
      rewrite app_nil_r in Hsw; rewrite Hsw; cbn [bind].
      apply IH; [lia | | lia |].
      * replace (i st1 - 1) with (i st - 1 + dim) by lia.
        rewrite Nat.Div0.add_mod, Hal, Nat.Div0.mod_same; simpl.
        apply Nat.Div0.mod_0_l.
      * replace (i st1 - 1) with (i st - 1 + dim) by lia.
        replace (N - i st1) with (N - i st - dim) by lia; exact H.
    + rewrite dirs_aligned in H by (auto; lia).
      pose proof (steps_i _ _ _ _ H) as Hi1; rewrite length_seq in Hi1.
      pose proof (seq_app (N - i st) (dim - (N - i st)) 0) as Hseq.
      replace (N - i st + (dim - (N - i st))) with dim in Hseq by lia.
      rewrite Hseq.
      rewrite (steps_sweep fuel N _ _ st st' H);
        [| rewrite length_seq; lia
         | right; rewrite length_seq; split; [lia |];
           destruct (N - i st) eqn:E; [lia | discriminate]].
      cbn [bind].
      destruct n as [| n]; [lia |]; simpl.
      replace (i st' <? N) with false by (symmetry; apply Nat.ltb_ge; lia).
      reflexivity.
  - apply Nat.ltb_ge in Hb.
    replace (N - i st) with 0 in H by lia; exact H.
Qed.

(** Coordinate steps that each return make a run of steps that returns. *)
Lemma steps_progress fuel dim a n st :
  (forall t pre, t < n ->
     steps rand g xargs w m fuel (dirs dim a t) st = Ret pre ->
     exists post,
       coord_step rand g xargs w m fuel ((a + t) mod dim) pre = Ret post) ->
  exists st', steps rand g xargs w m fuel (dirs dim a n) st = Ret st'.
Proof.
  induction n as [| n IH]; intros H; [exists st; reflexivity |].
  destruct IH as [pre Hpre]; [intros t p Ht; apply H; lia |].
  destruct (H n pre ltac:(lia) Hpre) as [post Hpost].
  exists post.
  replace (S n) with (n + 1) by lia.
  rewrite dirs_app, steps_app, Hpre; cbn [bind].
  rewrite dirs_one, steps_one; exact Hpost.
Qed.

End Run.

(** * The whole run *)

Section Chain.

Context {F : Type} {NF : Num F} {X : Type}.
Variable rand : nat -> F.
Variable g : list F -> X -> F.
Variable xargs : X.
Variable w : F.
Variable m : Z.


Lemma slicer_init_ok dim x N :
  (1 <= N)%Z -> (0 <= dim)%Z -> length x = Z.to_nat dim ->
  exists st0,
    slicer_init g xargs dim x N = Ret st0 /\
    wf (Z.to_nat N) (Z.to_nat dim) st0 /\
    i st0 = 1 /\ draws st0 = 0 /\ x0 st0 = x /\
    nth 0 (xs st0) [] = x /\ nth 0 (likelies st0) fzero = g x xargs.
Proof.
  intros HN Hdim Hx; unfold slicer_init.
  replace (N <? 0)%Z with false by (symmetry; apply Z.ltb_ge; lia).
  replace (dim <? 0)%Z with false by (symmetry; apply Z.ltb_ge; lia).
  simpl.
  destruct (Z.to_nat N) as [| n] eqn:En; [lia |].
  set (D := Z.to_nat dim) in *.
  unfold set_row; simpl.
  rewrite repeat_length, Hx, Nat.eqb_refl; simpl.
  eexists; split; [reflexivity |].
  split; [constructor; simpl |]; repeat split; auto.
  - rewrite repeat_length; reflexivity.
  - constructor; [exact Hx |].
    apply Forall_forall; intros r Hr; apply repeat_spec in Hr; subst r.
    apply repeat_length.
  - rewrite repeat_length; reflexivity.
  - apply repeat_length.
Qed.

Lemma sweep_no_raise fuel N dim ds st e :
  wf N dim st -> i st < N -> sweep rand g xargs w m fuel N ds st <> Raise e.
Proof.
  revert st; induction ds as [| d ds IH]; simpl; intros st Hwf Hi H;
    [discriminate |].
  apply bind_Raise in H; destruct H as [H | [st1 [Hstep H]]].
  - eapply coord_step_no_raise; eauto.
  - apply (coord_step_spec _ _ _ _ _ N dim) in Hstep; auto.
    destruct Hstep as (Hwf1 & Hi1 & _).
    destruct (N <=? i st1) eqn:Hb; [discriminate |].
    apply Nat.leb_gt in Hb; eapply IH; eauto.
Qed.

Lemma chain_loop_no_raise fuel N dim n st e :
  wf N dim st -> i st <= N ->
  chain_loop rand g xargs w m fuel N dim n st <> Raise e.
Proof.
  revert st; induction n as [| n IH]; simpl; intros st Hwf Hi H;
    [discriminate |].
  destruct (i st <? N) eqn:Hb; [| discriminate].
  apply Nat.ltb_lt in Hb.
  apply bind_Raise in H; destruct H as [H | [st1 [Hsw H]]].
  - eapply sweep_no_raise; eauto.
  - apply sweep_steps in Hsw; [| exact Hb].
    destruct Hsw as (ds1 & ds2 & Hds & Hs & Hl & Hle & Hend).
    apply (steps_spec _ _ _ _ _ N dim) in Hs; [| exact Hwf | lia].
    destruct Hs as (Hwf1 & _).
    eapply IH; eauto.
Qed.

(** A run that returns went through [slicer_init] and then exactly [N-1]
    coordinate steps. *)
Lemma run_steps fuel dim x N st' :
  (1 <= N)%Z -> (0 <= dim)%Z -> length x = Z.to_nat dim ->
  slicer_run rand g xargs w m fuel dim x N = Ret st' ->
  state_after rand g xargs w m fuel dim x N (Z.to_nat N - 1) = Ret st' /\
  i st' = Z.to_nat N.
Proof.
  intros HN Hdim Hx H.
  destruct (slicer_init_ok dim x N HN Hdim Hx)
    as (st0 & Hinit & Hwf & Hi0 & _).
  unfold slicer_run in H; unfold state_after.
  rewrite Hinit in *; simpl in *.
  apply chain_loop_steps in H.
  - rewrite Hi0 in H; exact H.
  - lia.
  - rewrite Hi0; simpl; apply Nat.Div0.mod_0_l.
Qed.

(** The step that fills row [t] of a run that returns in [st']: it starts
    in the state [pre] reached after [t-1] steps, at the point in row [t-1],
    and what it writes in row [t] is still there at the end. *)
Lemma run_step fuel dim x N st' t :
  (1 <= N)%Z -> (0 <= dim)%Z -> length x = Z.to_nat dim ->
  slicer_run rand g xargs w m fuel dim x N = Ret st' ->
  1 <= t < Z.to_nat N ->
  exists pre post,
    state_after rand g xargs w m fuel dim x N (t - 1) = Ret pre /\
    state_after rand g xargs w m fuel dim x N t = Ret post /\
    coord_step rand g xargs w m fuel ((t - 1) mod Z.to_nat dim) pre =
      Ret post /\
    wf (Z.to_nat N) (Z.to_nat dim) pre /\
    i pre = t /\
    x0 pre = nth (t - 1) (xs st') [] /\
    x0 post = nth t (xs st') [] /\
    (forall j, j <= t ->
               nth j (xs st') [] = nth j (xs post) [] /\
               nth j (likelies st') fzero = nth j (likelies post) fzero).
Proof.
  intros HN Hdim Hx H Ht.
  destruct (run_steps _ _ _ _ _ HN Hdim Hx H) as [Hall HiN].
  destruct (slicer_init_ok dim x N HN Hdim Hx)
    as (st0 & Hinit & Hwf & Hi0 & _).
  unfold state_after in *; rewrite Hinit in *; simpl in *.
  set (D := Z.to_nat dim) in *; set (n := Z.to_nat N) in *.
  replace (n - 1) with ((t - 1) + (1 + (n - 1 - t))) in Hall by lia.
  rewrite dirs_app, steps_app in Hall.
  apply bind_Ret in Hall; destruct Hall as [pre [Hpre Hall]].
  rewrite dirs_app, steps_app in Hall.
  apply bind_Ret in Hall; destruct Hall as [post [Hstep Hrest]].
  rewrite dirs_one, steps_one, Nat.add_0_l in Hstep.
  pose proof Hpre as Hpre'.
  apply (steps_spec _ _ _ _ _ n D) in Hpre';
    [| exact Hwf | rewrite length_dirs; lia].
  destruct Hpre' as (Hwfp & Hip & _); rewrite length_dirs in Hip.
  pose proof Hstep as Hstep'.
  apply (coord_step_spec _ _ _ _ _ n D) in Hstep'; [| exact Hwfp | lia].
  destruct Hstep' as (Hwfq & Hiq & _ & Hxsq & _).
  replace (i pre) with t in Hxsq by lia.
  apply (steps_spec _ _ _ _ _ n D) in Hrest;
    [| exact Hwfq | rewrite length_dirs; lia].
  destruct Hrest as (_ & _ & _ & Hfr).
  exists pre, post; split; [exact Hpre |].
  split.
  { replace t with ((t - 1) + 1) at 1 by lia.
    rewrite dirs_app, steps_app, Hpre; cbn [bind].
    rewrite dirs_one, steps_one, Nat.add_0_l; exact Hstep. }
  split; [exact Hstep |].
  split; [exact Hwfp |].
  split; [lia |].
  assert (Hrow : forall j, j <= t ->
             nth j (xs st') [] = nth j (xs post) [] /\
             nth j (likelies st') fzero = nth j (likelies post) fzero).
  { intros j Hj; apply Hfr; lia. }
  repeat split; try (apply Hrow; assumption).
  - destruct (Hrow (t - 1) ltac:(lia)) as [-> _].
    rewrite Hxsq, nth_upd_neq by lia.
    rewrite <- (wf_cur _ _ _ Hwfp); f_equal; lia.
  - destruct (Hrow t ltac:(lia)) as [-> _].
    rewrite Hxsq, nth_upd_eq; [reflexivity |].
    rewrite (wf_xs _ _ _ Hwfp); lia.
Qed.

(** The loop nest adds nothing that could keep a run from returning: when
    each of the [N-1] coordinate steps returns, so does the run. *)
Lemma run_progress fuel dim x N :
  (1 <= N)%Z -> (1 <= dim)%Z -> length x = Z.to_nat dim ->
  Z.to_nat N <= fuel ->
  (forall t pre, 1 <= t < Z.to_nat N ->
     state_after rand g xargs w m fuel dim x N (t - 1) = Ret pre ->
     exists post,
       coord_step rand g xargs w m fuel ((t - 1) mod Z.to_nat dim) pre =
       Ret post) ->
  exists st', slicer_run rand g xargs w m fuel dim x N = Ret st'.
Proof.
  intros HN Hdim Hx Hf H.
  destruct (slicer_init_ok dim x N HN ltac:(lia) Hx)
    as (st0 & Hinit & Hwf & Hi0 & _).
  unfold state_after in H; rewrite Hinit in H; cbn [bind] in H.
  unfold slicer_run; rewrite Hinit; cbn [bind].
  destruct (steps_progress rand g xargs w m fuel (Z.to_nat dim) 0
              (Z.to_nat N - 1) st0) as [st' Hs].
  { intros t pre Ht Hpre.
    replace (0 + t) with (S t - 1) by lia.
    apply (H (S t) pre); [lia |].
    replace (S t - 1) with t by lia; exact Hpre. }
  exists st'; apply steps_chain_loop; try lia.
  - rewrite Hi0; apply Nat.Div0.mod_0_l.
  - rewrite Hi0; exact Hs.
Qed.

(** The two searches of a coordinate step are all that can keep a run on
    valid input from returning: the assignments in between are in range. *)
Lemma run_searches fuel dim x N :
  (1 <= N)%Z -> (1 <= dim)%Z -> length x = Z.to_nat dim ->
  Z.to_nat N <= fuel ->
  (forall t pre, 1 <= t < Z.to_nat N ->
     state_after rand g xargs w m fuel dim x N (t - 1) = Ret pre ->
     exists LR r,
       step_out g xargs w m fuel (x0 pre)
         (set_way ((t - 1) mod Z.to_nat dim) (way pre))
         (height rand g xargs pre) (rand (1 + draws pre))
         (rand (2 + draws pre)) = Ret LR /\
       shrink rand g xargs fuel ((t - 1) mod Z.to_nat dim) (x0 pre)
         (height rand g xargs pre) (fst (fst LR)) (fst (snd LR))
         (3 + draws pre) = Ret r) ->
  exists st', slicer_run rand g xargs w m fuel dim x N = Ret st'.
Proof.
  intros HN Hdim Hx Hf H.
  apply run_progress; auto.
  intros t pre Ht Hpre.
  destruct (slicer_init_ok dim x N HN ltac:(lia) Hx)
    as (st0 & Hinit & Hwf0 & Hi0 & _).
  pose proof Hpre as Hs; unfold state_after in Hs.
  rewrite Hinit in Hs; cbn [bind] in Hs.
  apply (steps_spec _ _ _ _ _ (Z.to_nat N) (Z.to_nat dim)) in Hs;
    [| exact Hwf0 | rewrite length_dirs; lia].
  destruct Hs as (Hwf & Hi & _); rewrite length_dirs in Hi.
  destruct (H t pre Ht Hpre) as (LR & r & Hso & Hsh).
  apply (coord_step_searches rand g xargs w m (Z.to_nat N) (Z.to_nat dim)
           fuel _ pre LR r Hwf ltac:(lia) Hso Hsh).
Qed.

Lemma slicer_Ret fuel dim x N chain lik :
  slicer rand g xargs w m fuel dim x N = Ret (chain, lik) ->
  exists st', slicer_run rand g xargs w m fuel dim x N = Ret st' /\
              xs st' = chain /\ likelies st' = lik.
Proof.
  unfold slicer; intros H.
  apply bind_Ret in H; destruct H as [st' [Hrun H]].
  injection H as <- <-; exists st'; auto.
Qed.

End Chain.

(** * Properties of the chain that hold for every arithmetic *)

Section ChainClaims.

Context {F : Type} {NF : Num F} {X : Type}.
Variable rand : nat -> F.
Variable g : list F -> X -> F.
Variable xargs : X.
Variable w : F.
Variable m : Z.


(** C1.  For every index [t > 0] of a returned chain, the step that produced
    [chain[t]] started in the state [pre] reached after [t-1] steps, at the
    point [chain[t-1]]; its slice height is
    [y = g(chain[t-1]) + log(U1)] with [U1] the draw number [draws pre] of
    the source, and [y < g(chain[t])] holds. *)
Theorem slice_condition fuel dim x N chain lik t :
  valid dim x N ->
  slicer rand g xargs w m fuel dim x N = Ret (chain, lik) ->
  1 <= t < Z.to_nat N ->
  exists pre,
    state_after rand g xargs w m fuel dim x N (t - 1) = Ret pre /\
    x0 pre = nth (t - 1) chain [] /\
    fltb (fadd (g (nth (t - 1) chain []) xargs) (flog (rand (draws pre))))
         (g (nth t chain []) xargs) = true.
Proof.
  intros (HN & Hdim & Hx) H Ht.
  apply slicer_Ret in H; destruct H as (st' & Hrun & <- & <-).
  destruct (run_step _ _ _ _ _ fuel dim x N st' t HN ltac:(lia) Hx Hrun Ht)
    as (pre & post & Hpre & _ & Hstep & Hwf & Hi & Hx0 & Hx1 & _).
  exists pre; split; [exact Hpre |]; split; [exact Hx0 |].
  apply (coord_step_spec _ _ _ _ _ _ _ _ _ _ _ Hwf) in Hstep; [| lia].
  destruct Hstep as (_ & _ & _ & _ & _ & _ & Hacc).
  unfold height in Hacc; rewrite <- Hx0, <- Hx1; exact Hacc.
Qed.

(** C2.  For every index [t >= 1] of a returned run, [likelies[t]] is the
    log-density of the point the step that produced [chain[t]] started
    from, and that point is [chain[t-1]]. *)
Theorem likelies_pre_move fuel dim x N chain lik t :
  valid dim x N ->
  slicer rand g xargs w m fuel dim x N = Ret (chain, lik) ->
  1 <= t < Z.to_nat N ->
  exists pre,
    state_after rand g xargs w m fuel dim x N (t - 1) = Ret pre /\
    x0 pre = nth (t - 1) chain [] /\
    nth t lik fzero = g (x0 pre) xargs /\
    nth t lik fzero = g (nth (t - 1) chain []) xargs.
Proof.
  intros (HN & Hdim & Hx) H Ht.
  apply slicer_Ret in H; destruct H as (st' & Hrun & <- & <-).
  destruct (run_step _ _ _ _ _ fuel dim x N st' t HN ltac:(lia) Hx Hrun Ht)
    as (pre & post & Hpre & _ & Hstep & Hwf & Hi & Hx0 & Hx1 & Hfr).
  exists pre; split; [exact Hpre |]; split; [exact Hx0 |].
  apply (coord_step_spec _ _ _ _ _ _ _ _ _ _ _ Hwf) in Hstep; [| lia].
  destruct Hstep as (_ & _ & _ & _ & Hlk & _).
  assert (Hl : nth t (likelies st') fzero = g (x0 pre) xargs).
  { destruct (Hfr t (le_n t)) as [_ ->].
    rewrite Hlk, Hi; apply nth_upd_eq.
    rewrite (wf_lik _ _ _ Hwf); lia. }
  split; [exact Hl | rewrite <- Hx0; exact Hl].
Qed.

(** C6.  For every valid input, row 0 of a returned chain is the initial
    point [x0] and [likelies[0]] is [g(x0, xargs)]. *)
Theorem chain_head fuel dim x N chain lik :
  valid dim x N ->
  slicer rand g xargs w m fuel dim x N = Ret (chain, lik) ->
  nth_error chain 0 = Some x /\ nth_error lik 0 = Some (g x xargs).
Proof.
  intros (HN & Hdim & Hx) H.
  apply slicer_Ret in H; destruct H as (st' & Hrun & <- & <-).
  destruct (run_steps _ _ _ _ _ fuel dim x N st' HN ltac:(lia) Hx Hrun)
    as [Hall HiN].
  destruct (slicer_init_ok g xargs dim x N HN ltac:(lia) Hx)
    as (st0 & Hinit & Hwf & Hi0 & _ & _ & Hr0 & Hl0).
  unfold state_after in Hall; rewrite Hinit in Hall; simpl in Hall.
  apply (steps_spec _ _ _ _ _ (Z.to_nat N) (Z.to_nat dim)) in Hall;
    [| exact Hwf | rewrite length_dirs; lia].
  destruct Hall as (Hwf' & _ & _ & Hfr).
  destruct (Hfr 0 ltac:(lia)) as [Hr Hl].
  rewrite Hr0 in Hr; rewrite Hl0 in Hl.
  pose proof (wf_xs _ _ _ Hwf') as Hlen.
  pose proof (wf_lik _ _ _ Hwf') as Hlen'.
  destruct (xs st') as [| r rs]; [simpl in Hlen; lia |].
  destruct (likelies st') as [| l ls]; [simpl in Hlen'; lia |].
  simpl in *; subst; auto.
Qed.

End ChainClaims.

Section ShapeClaim.

Context {F : Type} {NF : Num F} {X : Type}.
Variable rand : nat -> F.
Variable g : list F -> X -> F.
Variable xargs : X.
Variable w : F.
Variable m : Z.


(** C5, as amended.  For every valid input the run returns as soon as the
    step-out and the shrinkage of each of its [N-1] coordinate steps do (a
    shrinkage that accepts no candidate never does), and a run that returns
    gives [N] rows of length [dim] and [N] likelihoods.  It has made exactly
    [N-1] coordinate steps,
    also when that is not a whole number of sweeps; step [t] starts with
    [i = t], ends with [i = t+1], writes the point it accepted in row [t]
    and the log-density of the point it started from in entry [t], and
    nothing else; the rows up to [t] are after step [t] what they are in
    the returned arrays. *)
Theorem chain_shape fuel dim x N :
  valid dim x N ->
  (Z.to_nat N <= fuel ->
   (forall t pre, 1 <= t < Z.to_nat N ->
      state_after rand g xargs w m fuel dim x N (t - 1) = Ret pre ->
      exists LR r,
        step_out g xargs w m fuel (x0 pre)
          (set_way ((t - 1) mod Z.to_nat dim) (way pre))
          (height rand g xargs pre) (rand (1 + draws pre))
          (rand (2 + draws pre)) = Ret LR /\
        shrink rand g xargs fuel ((t - 1) mod Z.to_nat dim) (x0 pre)
          (height rand g xargs pre) (fst (fst LR)) (fst (snd LR))
          (3 + draws pre) = Ret r) ->
   exists chain lik,
     slicer rand g xargs w m fuel dim x N = Ret (chain, lik)) /\
  forall chain lik,
    slicer rand g xargs w m fuel dim x N = Ret (chain, lik) ->
    length chain = Z.to_nat N /\
    Forall (fun r => length r = Z.to_nat dim) chain /\
    length lik = Z.to_nat N /\
    (exists st,
        state_after rand g xargs w m fuel dim x N (Z.to_nat N - 1) = Ret st /\
        xs st = chain /\ likelies st = lik /\ i st = Z.to_nat N) /\
    forall t, 1 <= t < Z.to_nat N ->
      exists pre post,
        state_after rand g xargs w m fuel dim x N (t - 1) = Ret pre /\
        coord_step rand g xargs w m fuel ((t - 1) mod Z.to_nat dim) pre =
          Ret post /\
        state_after rand g xargs w m fuel dim x N t = Ret post /\
        i pre = t /\ i post = S t /\
        nth t chain [] = x0 post /\
        nth t lik fzero = g (x0 pre) xargs /\
        xs post = upd t (x0 post) (xs pre) /\
        likelies post = upd t (g (x0 pre) xargs) (likelies pre) /\
        forall j, j <= t ->
          nth j chain [] = nth j (xs post) [] /\
          nth j lik fzero = nth j (likelies post) fzero.
Proof.
  intros (HN & Hdim & Hx).
  destruct (slicer_init_ok g xargs dim x N HN ltac:(lia) Hx)
    as (st0 & Hinit & Hwf & Hi0 & _).
  split.
  { intros Hf Hsteps.
    destruct (run_searches rand g xargs w m fuel dim x N HN Hdim Hx Hf Hsteps)
      as [st' Hrun].
    exists (xs st'), (likelies st'); unfold slicer; rewrite Hrun; reflexivity. }
  intros chain lik H.
  apply slicer_Ret in H; destruct H as (st' & Hrun & <- & <-).
  destruct (run_steps _ _ _ _ _ fuel dim x N st' HN ltac:(lia) Hx Hrun)
    as [Hall HiN].
  assert (Hwf' : wf (Z.to_nat N) (Z.to_nat dim) st').
  { pose proof Hall as Hs; unfold state_after in Hs.
    rewrite Hinit in Hs; simpl in Hs.
    apply (steps_spec _ _ _ _ _ (Z.to_nat N) (Z.to_nat dim)) in Hs;
      [tauto | exact Hwf | rewrite length_dirs; lia]. }
  split; [apply (wf_xs _ _ _ Hwf') |].
  split; [apply (wf_rows _ _ _ Hwf') |].
  split; [apply (wf_lik _ _ _ Hwf') |].
  split; [exists st'; auto |].
  intros t Ht.
  destruct (run_step _ _ _ _ _ fuel dim x N st' t HN ltac:(lia) Hx Hrun Ht)
    as (pre & post & Hpre & Hpost & Hstep & Hwfp & Hi & Hx0 & Hx1 & Hfr).
  exists pre, post.
  pose proof Hstep as Hs.
  apply (coord_step_spec _ _ _ _ _ _ _ _ _ _ _ Hwfp) in Hs; [| lia].
  destruct Hs as (_ & Hiq & _ & Hxs & Hlk & _).
  rewrite Hi in *.
  repeat split; auto; try (apply Hfr; assumption).
  destruct (Hfr t (le_n t)) as [_ ->].
  rewrite Hlk; apply nth_upd_eq.
  rewrite (wf_lik _ _ _ Hwfp); lia.
Qed.

End ShapeClaim.

(** The run of [Demo] returns, with three steps along the coordinates
    0, 1, 0. *)
Lemma demo_returns : Demo.run 30 B64.half 10 2 4 = Ret (Demo.chain, Demo.lik).
Proof. vm_compute; reflexivity. Qed.

Lemma demo_valid : valid 2 Demo.start 4.
Proof. unfold valid; simpl; repeat split; lia. Defined.

Lemma slice_condition_witness :
  exists pre,
    state_after (NF := B64.num B64.log_table) Demo.rand Demo.gauss tt
      B64.half 10 30 2 Demo.start 4 (2 - 1) = Ret pre /\
    x0 pre = nth (2 - 1) Demo.chain [] /\
    SFltb (SFadd B64.prec B64.emax (Demo.gauss (nth (2 - 1) Demo.chain []) tt)
                 (B64.log_table (Demo.rand (draws pre))))
          (Demo.gauss (nth 2 Demo.chain []) tt) = true.
Proof.
  apply (slice_condition (NF := B64.num B64.log_table) Demo.rand Demo.gauss tt
           B64.half 10 30 2 Demo.start 4 Demo.chain Demo.lik 2).
  - exact demo_valid.
  - vm_compute; reflexivity.
  - simpl; lia.
Defined.

Lemma likelies_pre_move_witness :
  exists pre,
    state_after (NF := B64.num B64.log_table) Demo.rand Demo.gauss tt
      B64.half 10 30 2 Demo.start 4 (3 - 1) = Ret pre /\
    x0 pre = nth (3 - 1) Demo.chain [] /\
    nth 3 Demo.lik B64.zero = Demo.gauss (x0 pre) tt /\
    nth 3 Demo.lik B64.zero = Demo.gauss (nth (3 - 1) Demo.chain []) tt.
Proof.
  apply (likelies_pre_move (NF := B64.num B64.log_table) Demo.rand Demo.gauss
           tt B64.half 10 30 2 Demo.start 4 Demo.chain Demo.lik 3).
  - exact demo_valid.
  - vm_compute; reflexivity.
  - simpl; lia.
Defined.

(** In that run [likelies[1]] is -0.5, the log-density of the starting point
    [(1, 0)], and not the log-density -0.28125 of [chain[1] = (-0.75, 0)]. *)
Lemma demo_likelies_not_of_new_point :
  nth 1 Demo.chain [] =
    [S754_finite true 6755399441055744 (-53); S754_zero false] /\
  nth 1 Demo.lik B64.zero = Demo.minus_half /\
  Demo.gauss (nth 1 Demo.chain []) tt =
    S754_finite true 5066549580791808 (-54) /\
  nth 1 Demo.lik B64.zero <> Demo.gauss (nth 1 Demo.chain []) tt.
Proof. vm_compute; repeat split; discriminate. Qed.

Lemma chain_head_witness :
  nth_error Demo.chain 0 = Some Demo.start /\
  nth_error Demo.lik 0 = Some (Demo.gauss Demo.start tt).
Proof.
  apply (chain_head (NF := B64.num B64.log_table) Demo.rand Demo.gauss tt
           B64.half 10 30 2 Demo.start 4 Demo.chain Demo.lik).
  - exact demo_valid.
  - vm_compute; reflexivity.
Defined.

(** The step-out and the shrinkage of each of the three coordinate steps of
    that run return. *)
Lemma demo_steps_return t pre :
  1 <= t < Z.to_nat 4 ->
  state_after (NF := B64.num B64.log_table) Demo.rand Demo.gauss tt B64.half
    10 30 2 Demo.start 4 (t - 1) = Ret pre ->
  exists LR r,
    step_out (NF := B64.num B64.log_table) Demo.gauss tt B64.half 10 30
      (x0 pre)
      (set_way (NF := B64.num B64.log_table) ((t - 1) mod Z.to_nat 2)
         (way pre))
      (height (NF := B64.num B64.log_table) Demo.rand Demo.gauss tt pre)
      (Demo.rand (1 + draws pre)) (Demo.rand (2 + draws pre)) = Ret LR /\
    shrink (NF := B64.num B64.log_table) Demo.rand Demo.gauss tt 30
      ((t - 1) mod Z.to_nat 2) (x0 pre)
      (height (NF := B64.num B64.log_table) Demo.rand Demo.gauss tt pre)
      (fst (fst LR)) (fst (snd LR)) (3 + draws pre) = Ret r.
Proof.
  intros Ht Hpre.
  assert (Hc : t = 1 \/ t = 2 \/ t = 3) by (simpl in Ht; lia).
  destruct Hc as [-> | [-> | ->]];
    vm_compute in Hpre; injection Hpre as <-;
    do 2 eexists; (split; [vm_compute; reflexivity |]);
    vm_compute; reflexivity.
Qed.

Lemma chain_shape_witness :
  (exists chain lik, Demo.run 30 B64.half 10 2 4 = Ret (chain, lik)) /\
  length Demo.chain = 4 /\
  Forall (fun r => length r = 2) Demo.chain /\
  length Demo.lik = 4.
Proof.
  destruct (chain_shape (NF := B64.num B64.log_table) Demo.rand Demo.gauss tt
              B64.half 10 30 2 Demo.start 4 demo_valid) as [Hret H].
  split.
  - apply Hret; [simpl; lia | exact demo_steps_return].
  - destruct (H Demo.chain Demo.lik) as (H1 & H2 & H3 & _).
    + vm_compute; reflexivity.
    + exact (conj H1 (conj H2 H3)).
Defined.

(** * A density that is never above the slice height *)

Section Diverge.

Context {F : Type} {NF : Num F} {X : Type}.
Variable rand : nat -> F.
Variable g : list F -> X -> F.
Variable xargs : X.
Variable w : F.
Variable m : Z.

(** The comparison [y < g(x1, xargs)] fails whatever [y] and [x1] are. *)
Hypothesis never_above : forall y v, fltb y (g v xargs) = false.

Lemma shrink_diverges fuel d x y Lbar Rbar k :
  shrink rand g xargs fuel d x y Lbar Rbar k = Fuel.
Proof.
  revert Lbar Rbar k; induction fuel as [| fuel IH]; simpl;
    intros Lbar Rbar k; [reflexivity |].
  rewrite never_above.
  destruct (fltb (nth d _ fzero) (nth d x fzero)); apply IH.
Qed.

Lemma coord_step_diverges fuel d st :
  coord_step rand g xargs w m fuel d st = Fuel.
Proof.
  unfold coord_step.
  destruct (step_out g xargs w m fuel _ _ _ _ _) as [LR | e |] eqn:E;
    simpl; [rewrite shrink_diverges; reflexivity | | reflexivity].
  unfold step_out in E.
  apply bind_Raise in E; destruct E as [E | [LJ [_ E]]].
  - exfalso; eapply step_out_left_no_raise; exact E.
  - apply bind_Raise in E; destruct E as [E | [RK [_ E]]]; [| discriminate].
    exfalso; eapply step_out_right_no_raise; exact E.
Qed.

Lemma slicer_diverges fuel dim x N :
  valid dim x N -> (2 <= N)%Z ->
  slicer rand g xargs w m fuel dim x N = Fuel.
Proof.
  intros (HN & Hdim & Hx) H2.
  destruct (slicer_init_ok g xargs dim x N HN ltac:(lia) Hx)
    as (st0 & Hinit & _ & Hi0 & _).
  unfold slicer, slicer_run; rewrite Hinit; simpl.
  destruct fuel as [| fuel]; simpl; [reflexivity |].
  replace (i st0 <? Z.to_nat N) with true
    by (symmetry; apply Nat.ltb_lt; lia).
  destruct (Z.to_nat dim) as [| D] eqn:ED; [lia |].
  simpl; rewrite coord_step_diverges; reflexivity.
Qed.

End Diverge.

(** In binary64 nothing is below minus infinity. *)
Lemma SFltb_minus_inf (y : spec_float) : SFltb y (S754_infinity true) = false.
Proof. destruct y as [s | s | | s my e]; try destruct s; reflexivity. Qed.

(** A run on valid input that returns no chain: in one dimension, from 0.0
    and for [N = 2], with the log-density minus infinity everywhere (the
    density is zero).  The slice height is minus infinity, no candidate is
    above it, and the first step is never over. *)
Lemma valid_input_never_returns :
  valid 1 [B64.zero] 2 /\
  forall fuel,
    slicer (NF := B64.num B64.log_table) Demo.rand
      (fun _ _ => S754_infinity true) tt B64.half 10 fuel 1 [B64.zero] 2
    = Fuel.
Proof.
  assert (Hv : valid 1 [B64.zero] 2) by (unfold valid; simpl; lia).
  split; [exact Hv |].
  intros fuel; apply slicer_diverges; [| exact Hv | lia].
  intros y v; apply SFltb_minus_inf.
Qed.

(** In binary64 no comparison with NaN holds. *)
Lemma SFltb_nan (y : spec_float) : SFltb y S754_nan = false.
Proof. destruct y; reflexivity. Qed.

(** C3.  The shrinkage loop has no bound of its own: when [g] returns NaN
    everywhere, the test [y < g(x1, xargs)] is false at every candidate, no
    amount of fuel lets the loop leave, and a run that has a step to make
    ([N >= 2]) returns for no amount of fuel. *)
Theorem nan_density_never_returns
  (ln : spec_float -> spec_float) (X : Type)
  (rand : nat -> spec_float) (g : list spec_float -> X -> spec_float)
  (xargs : X) (w : spec_float) (m : Z) (dim : Z) (x : list spec_float)
  (N : Z) :
  (forall v, g v xargs = B64.nan) ->
  valid dim x N -> (2 <= N)%Z ->
  (forall y v, fltb (Num := B64.num ln) y (g v xargs) = false) /\
  (forall fuel d x' y Lbar Rbar k,
      shrink (NF := B64.num ln) rand g xargs fuel d x' y Lbar Rbar k = Fuel) /\
  (forall fuel,
      slicer (NF := B64.num ln) rand g xargs w m fuel dim x N = Fuel).
Proof.
  intros Hg Hv HN.
  assert (Hnever : forall y v, fltb (Num := B64.num ln) y (g v xargs) = false).
  { intros y v; rewrite Hg; apply SFltb_nan. }
  split; [exact Hnever |]; split.
  - intros; apply shrink_diverges; exact Hnever.
  - intros fuel; apply slicer_diverges; assumption.
Qed.

Lemma nan_density_witness :
  slicer (NF := B64.num B64.log_table) Demo.rand (fun _ _ => B64.nan) tt
    B64.half 10 1000 2 Demo.start 4 = Fuel.
Proof.
  apply (nan_density_never_returns B64.log_table unit Demo.rand
           (fun _ _ => B64.nan) tt B64.half 10 2 Demo.start 4).
  - intros v; reflexivity.
  - exact demo_valid.
  - lia.
Defined.

(** * Parameters that are not checked *)

Section Unchecked.

Context {F : Type} {NF : Num F} {X : Type}.
Variable rand : nat -> F.
Variable g : list F -> X -> F.
Variable xargs : X.

(** C4, as the code has it.  [slicer] has no check of [w] or [m]: whatever
    [w] is and whatever int [m] is among those that convert to a float
    (zero and negative ones too), a run with [N >= 1], [dim >= 0] and [x0]
    of length [dim] raises nothing.  A negative [N] or [dim] makes the
    allocation raise ValueError and [N = 0] makes the first assignment raise
    IndexError: both in [slicer_init], which makes no draw and returns no
    array. *)
Theorem no_parameter_check (w : F) (m : Z) fuel dim x N :
  ((N < 0 \/ dim < 0)%Z ->
   slicer_init g xargs dim x N = Raise ValueError /\
   slicer rand g xargs w m fuel dim x N = Raise ValueError) /\
  (N = 0%Z -> (0 <= dim)%Z ->
   slicer_init g xargs dim x N = Raise IndexError /\
   slicer rand g xargs w m fuel dim x N = Raise IndexError) /\
  ((1 <= N)%Z -> (0 <= dim)%Z -> length x = Z.to_nat dim ->
   int_converts m = true -> int_converts (m - 1) = true ->
   forall e, slicer rand g xargs w m fuel dim x N <> Raise e).
Proof.
  split; [| split].
  - intros H.
    assert (E : slicer_init g xargs dim x N = Raise ValueError).
    { unfold slicer_init.
      destruct H as [H | H].
      - replace (N <? 0)%Z with true by (symmetry; apply Z.ltb_lt; lia).
        reflexivity.
      - replace (dim <? 0)%Z with true by (symmetry; apply Z.ltb_lt; lia).
        rewrite orb_true_r; reflexivity. }
    split; [exact E |].
    unfold slicer, slicer_run; rewrite E; reflexivity.
  - intros -> Hdim.
    assert (E : slicer_init g xargs dim x 0 = Raise IndexError).
    { unfold slicer_init.
      replace (dim <? 0)%Z with false by (symmetry; apply Z.ltb_ge; lia).
      reflexivity. }
    split; [exact E |].
    unfold slicer, slicer_run; rewrite E; reflexivity.
  - intros HN Hdim Hx _ _ e H.
    destruct (slicer_init_ok g xargs dim x N HN Hdim Hx)
      as (st0 & Hinit & Hwf & Hi0 & _).
    unfold slicer, slicer_run in H; rewrite Hinit in H; simpl in H.
    apply bind_Raise in H; destruct H as [H | [st' [_ H]]]; [| discriminate].
    eapply chain_loop_no_raise; [exact Hwf | | exact H]; lia.
Qed.

End Unchecked.

(** With [w = 0] the run of [Demo] is not rejected: it makes its three steps,
    consumes twelve draws and returns a chain that stays at the starting
    point. *)
Lemma zero_width_not_rejected :
  exists st,
    slicer_run (NF := B64.num B64.log_table) Demo.rand Demo.gauss tt
      B64.zero 10 30 2 Demo.start 4 = Ret st /\
    draws st = 12 /\
    xs st = [Demo.start; Demo.start; Demo.start; Demo.start] /\
    Demo.run 30 B64.zero 10 2 4 = Ret (xs st, likelies st).
Proof. eexists; vm_compute; repeat split. Qed.

(** Neither are a negative [w] and a negative [m]. *)
Lemma negative_width_not_rejected :
  exists st,
    slicer_run (NF := B64.num B64.log_table) Demo.rand Demo.gauss tt
      Demo.minus_half (-3) 30 2 Demo.start 4 = Ret st /\
    draws st = 12.
Proof. eexists; vm_compute; repeat split. Qed.

Lemma no_parameter_check_witness :
  (Demo.run 30 B64.zero (-3) (-1) 4 = Raise ValueError) /\
  (Demo.run 30 B64.zero (-3) 2 0 = Raise IndexError) /\
  (Demo.run 30 B64.zero (-3) 2 4 <> Raise ValueError).
Proof.
  destruct (no_parameter_check (NF := B64.num B64.log_table) Demo.rand
              Demo.gauss tt B64.zero (-3) 30 (-1) Demo.start 4)
    as (Ha & _ & _).
  destruct (no_parameter_check (NF := B64.num B64.log_table) Demo.rand
              Demo.gauss tt B64.zero (-3) 30 2 Demo.start 0)
    as (_ & Hb & _).
  destruct (no_parameter_check (NF := B64.num B64.log_table) Demo.rand
              Demo.gauss tt B64.zero (-3) 30 2 Demo.start 4)
    as (_ & _ & Hc).
  split; [apply Ha; right; lia |].
  split; [apply Hb; [reflexivity | lia] |].
  apply Hc; [lia | lia | reflexivity | reflexivity | reflexivity].
Defined.

(** * Arithmetic without rounding *)

Section Exact.

Context {F : Type} {NF : Num F} {EA : ExactArith F}.

Add Ring Fring : ea_ring.

Lemma lt_asym a b : fltb a b = true -> fltb b a = false.
Proof.
  intros H; destruct (fltb b a) eqn:E; [| reflexivity].
  rewrite <- (ea_lt_irrefl a); symmetry; eapply ea_lt_trans; eauto.
Qed.

Lemma le_lt_trans a b c :
  fltb b a = false -> fltb b c = true -> fltb a c = true.
Proof.
  intros H1 H2; destruct (fltb a b) eqn:E.
  - eapply ea_lt_trans; eauto.
  - rewrite (ea_lt_total a b E H1); exact H2.
Qed.


Lemma lt_sub_pos a b : fltb a b = true -> fltb fzero (fsub b a) = true.
Proof.
  intros H; apply (ea_add_lt _ _ (fsub fzero a)) in H.
  replace (fadd a (fsub fzero a)) with fzero in H by ring.
  replace (fadd b (fsub fzero a)) with (fsub b a) in H by ring.
  exact H.
Qed.

Lemma pos_sub_lt a b : fltb fzero (fsub b a) = true -> fltb a b = true.
Proof.
  intros H; apply (ea_add_lt _ _ a) in H.
  replace (fadd fzero a) with a in H by ring.
  replace (fadd (fsub b a) a) with b in H by ring.
  exact H.
Qed.

Lemma lt_succ a : fltb a (fadd a fone) = true.
Proof.
  apply pos_sub_lt; replace (fsub (fadd a fone) a) with fone by ring.
  apply ea_one_pos.
Qed.

Lemma of_int_add a b : of_int (a + b) = fadd (of_int a) (of_int b).
Proof.
  revert b; apply Z.peano_ind.
  - rewrite Z.add_0_r, ea_of_int_0; ring.
  - intros b IH.
    replace (a + Z.succ b)%Z with ((a + b) + 1)%Z by lia.
    replace (Z.succ b) with (b + 1)%Z by lia.
    rewrite !ea_of_int_succ, IH; ring.
  - intros b IH.
    assert (H1 : of_int (a + b) = fadd (of_int (a + Z.pred b)) fone).
    { rewrite <- ea_of_int_succ; f_equal; lia. }
    assert (H2 : of_int b = fadd (of_int (Z.pred b)) fone).
    { rewrite <- ea_of_int_succ; f_equal; lia. }
    rewrite H1, H2 in IH.
    replace (of_int (a + Z.pred b))
      with (fsub (fadd (of_int (a + Z.pred b)) fone) fone) by ring.
    rewrite IH; ring.
Qed.

Lemma of_int_1 : of_int 1 = fone.
Proof.
  replace 1%Z with (0 + 1)%Z by lia.
  rewrite ea_of_int_succ, ea_of_int_0; ring.
Qed.

Lemma of_int_sub a b : of_int (a - b) = fsub (of_int a) (of_int b).
Proof.
  assert (H : of_int a = fadd (of_int (a - b)) (of_int b)).
  { rewrite <- of_int_add; f_equal; lia. }
  rewrite H; ring.
Qed.

Lemma of_int_lt a b : (a < b)%Z -> fltb (of_int a) (of_int b) = true.
Proof.
  intros H; replace b with (a + Z.pos (Z.to_pos (b - a)))%Z
    by (rewrite Z2Pos.id; lia).
  generalize (Z.to_pos (b - a)); intros p.
  induction p as [| p IH] using Pos.peano_ind.
  - rewrite ea_of_int_succ; apply lt_succ.
  - replace (a + Z.pos (Pos.succ p))%Z with ((a + Z.pos p) + 1)%Z by lia.
    rewrite ea_of_int_succ.
    eapply ea_lt_trans; [exact IH | apply lt_succ].
Qed.

Lemma of_int_lt_inv a b : fltb (of_int a) (of_int b) = true -> (a < b)%Z.
Proof.
  intros H; destruct (Z.lt_trichotomy a b) as [Hlt | [-> | Hgt]]; auto.
  - rewrite ea_lt_irrefl in H; discriminate.
  - apply of_int_lt, lt_asym in Hgt; congruence.
Qed.

Lemma of_int_le_inv a b : fltb (of_int a) (of_int b) = false -> (b <= a)%Z.
Proof.
  intros H; destruct (Z_lt_le_dec a b) as [Hlt | Hle]; [| exact Hle].
  apply of_int_lt in Hlt; congruence.
Qed.


Lemma mul_nonneg a b :
  fltb fzero a = true -> fltb b fzero = false ->
  fltb (fmul a b) fzero = false.
Proof.
  intros Ha Hb; destruct (fltb fzero b) eqn:E.
  - apply lt_asym, ea_mul_pos; assumption.
  - rewrite <- (ea_lt_total _ _ E Hb).
    replace (fmul a fzero) with fzero by ring; apply ea_lt_irrefl.
Qed.


End Exact.

(** * The rationals are an arithmetic without rounding *)

Lemma Rat_ltb_lt (a b : Qc) : Rat.ltb a b = true <-> (this a < this b)%Q.
Proof.
  unfold Rat.ltb, Qccompare; rewrite Qlt_alt.
  destruct (this a ?= this b)%Q; split; intros H; congruence.
Qed.

Lemma Rat_ltb_ge (a b : Qc) : Rat.ltb a b = false <-> (this b <= this a)%Q.
Proof.
  unfold Rat.ltb, Qccompare; rewrite Qle_alt, <- Qcompare_antisym.
  destruct (this b ?= this a)%Q; simpl; split; intros H;
    try reflexivity; try discriminate; try (exfalso; apply H; reflexivity).
Qed.

Lemma Rat_this_of_Z (z : Z) : (this (Rat.of_Z z) == inject_Z z)%Q.
Proof. unfold Rat.of_Z, Q2Qc; cbn [this]; apply Qred_correct. Qed.

Lemma Rat_exact (ln : Qc -> Qc) : ExactArith Qc (NF := Rat.num ln).
Proof.
  constructor; simpl.
  - constructor; intros; simpl; try ring.
  - intros a; apply Rat_ltb_ge; apply Qle_refl.
  - intros a b c; rewrite !Rat_ltb_lt; apply Qlt_trans.
  - intros a b; rewrite !Rat_ltb_ge; intros H1 H2.
    apply Qc_is_canon; apply Qle_antisym; assumption.
  - intros a b c; rewrite !Rat_ltb_lt.
    unfold Qcplus, Q2Qc; cbn [this]; rewrite !Qred_correct.
    intros H; apply Qplus_lt_l; exact H.
  - intros a b; rewrite !Rat_ltb_lt.
    unfold Qcmult, Q2Qc; cbn [this]; rewrite !Qred_correct.
    apply Qmult_lt_0_compat.
  - reflexivity.
  - reflexivity.
  - intros z; unfold Rat.of_Z; apply Qc_is_canon.
    unfold Qcplus, Q2Qc; cbn [this].
    rewrite !Qred_correct, inject_Z_plus; reflexivity.
  - intros x; exists (Qfloor x); split; [reflexivity |].
    rewrite Rat_ltb_ge, Rat_ltb_lt, !Rat_this_of_Z; split.
    + apply Qfloor_le.
    + apply Qlt_floor.
Qed.

(** * The bracket, in arithmetic without rounding *)

Section Bracket.

Context {F : Type} {NF : Num F} {EA : ExactArith F} {X : Type}.
Variable g : list F -> X -> F.
Variable xargs : X.
Variable w : F.
Variable m : Z.

Add Ring Fring' : ea_ring.






(** [floor(m*V)] is one of the integers 0, ..., [m-1]. *)
Lemma budget_J_range V :
  (1 <= m)%Z -> fltb V fzero = false -> fltb V fone = true ->
  exists j : Z, budget_J m V = of_int j /\ (0 <= j < m)%Z.
Proof.
  intros Hm HV0 HV1; unfold budget_J.
  destruct (ea_floor (fmul (of_int m) V)) as (z & Hz & Hlo & Hhi).
  assert (Hmpos : fltb fzero (of_int m) = true).
  { rewrite <- ea_of_int_0; apply of_int_lt; lia. }
  exists z; split; [exact Hz |]; split.
  - assert (H : (0 < z + 1)%Z); [| lia].
    apply of_int_lt_inv; rewrite ea_of_int_0.
    eapply le_lt_trans; [| exact Hhi].
    apply mul_nonneg; assumption.
  - apply of_int_lt_inv; eapply le_lt_trans; [exact Hlo |].
    apply pos_sub_lt.
    replace (fsub (of_int m) (fmul (of_int m) V))
      with (fmul (of_int m) (fsub fone V)) by ring.
    apply ea_mul_pos; [exact Hmpos | apply lt_sub_pos; exact HV1].
Qed.


End Bracket.

Section Expansion.

Context {F : Type} {NF : Num F} {X : Type}.
Variable g : list F -> X -> F.
Variable xargs : X.
Variable w : F.




Context {EA : ExactArith F}.

Add Ring Fring'' : ea_ring.




End Expansion.

Section Width.

Context {F : Type} {NF : Num F} {EA : ExactArith F} {X : Type}.
Variable rand : nat -> F.
Variable g : list F -> X -> F.
Variable xargs : X.
Variable w : F.
Variable m : Z.

Add Ring Fring3 : ea_ring.






End Width.

Section WidthClaim.

Context {F : Type} {NF : Num F} {X : Type}.
Variable g : list F -> X -> F.
Variable xargs : X.
Variable w : F.
Variable m : Z.


End WidthClaim.

(** * The run of [RDemo] *)

Lemma rdemo_returns :
  RDemo.run 30 Rat.half 10 2 4 = Ret (RDemo.chain, RDemo.lik).
Proof. vm_compute; reflexivity. Qed.

Lemma rdemo_valid : valid 2 RDemo.start 4.
Proof. unfold valid; simpl; repeat split; lia. Defined.




Lemma rdemo_first_bracket :
  map this (fst (fst RDemo.first_bracket)) = [(-13 # 8)%Q; 0%Q] /\
  map this (fst (snd RDemo.first_bracket)) = [(15 # 8)%Q; 0%Q] /\
  this (snd (fst RDemo.first_bracket)) = 0%Q /\
  this (snd (snd RDemo.first_bracket)) = 3%Q.
Proof. vm_compute; repeat split. Qed.


Lemma rdemo_chain :
  map (map this) RDemo.chain =
  [[1%Q; 0%Q]; [(-3 # 4)%Q; 0%Q]; [(-3 # 4)%Q; (-1 # 2)%Q];
   [(-5 # 8)%Q; (-1 # 2)%Q]].
Proof. vm_compute; reflexivity. Qed.

(** * Binary64 rounds

    The equalities and the strict inequality of the bracket are those of
    arithmetic without rounding; in binary64 each sum is rounded. *)




(** On a flat log-density, from [(1.0, +inf)] and for [N = 2], the one step
    of the run is along coordinate 0 and turns the other component, which
    is infinite, into NaN: the candidate is [Lbar + U * (Rbar - Lbar)], and
    [inf - inf] is NaN. *)
Lemma off_axis_infinite_b64 :
  valid 2 [B64.one; S754_infinity false] 2 /\
  (1 - 1) mod Z.to_nat 2 = 0 /\
  exists chain lik,
    Rounding.run_inf = Ret (chain, lik) /\
    nth 1 (nth (1 - 1) chain []) B64.zero = S754_infinity false /\
    nth 1 (nth 1 chain []) B64.zero = S754_nan /\
    SFeqb (nth 1 (nth 1 chain []) B64.zero)
          (nth 1 (nth (1 - 1) chain []) B64.zero) = false.
Proof.
  split; [unfold valid; simpl; lia |].
  split; [reflexivity |].
  do 2 eexists; vm_compute; repeat split.
Qed.

(** * Fuel

    The outcome [Ret] does not depend on the fuel: more fuel returns the
    same. *)

Section FuelMono.

Context {F : Type} {NF : Num F} {X : Type}.
Variable rand : nat -> F.
Variable g : list F -> X -> F.
Variable xargs : X.
Variable w : F.
Variable m : Z.

Lemma step_out_left_mono f f' way y L J r :
  f <= f' -> step_out_left g xargs w f way y L J = Ret r ->
  step_out_left g xargs w f' way y L J = Ret r.
Proof.
  revert f' L J; induction f as [| f IH]; intros f' L J Hle H;
    [discriminate |].
  destruct f' as [| f']; [lia |]; simpl in *.
  destruct (fltb fzero J && fltb y (g L xargs)); [| exact H].
  apply IH; [lia | exact H].
Qed.

Lemma step_out_right_mono f f' way y R K r :
  f <= f' -> step_out_right g xargs w f way y R K = Ret r ->
  step_out_right g xargs w f' way y R K = Ret r.
Proof.
  revert f' R K; induction f as [| f IH]; intros f' R K Hle H;
    [discriminate |].
  destruct f' as [| f']; [lia |]; simpl in *.
  destruct (fltb fzero K && fltb y (g R xargs)); [| exact H].
  apply IH; [lia | exact H].
Qed.

Lemma shrink_mono f f' d x y Lbar Rbar k r :
  f <= f' -> shrink rand g xargs f d x y Lbar Rbar k = Ret r ->
  shrink rand g xargs f' d x y Lbar Rbar k = Ret r.
Proof.
  revert f' Lbar Rbar k; induction f as [| f IH]; intros f' Lbar Rbar k Hle H;
    [discriminate |].
  destruct f' as [| f']; [lia |]; simpl in *.
  destruct (fltb y (g _ xargs)); [exact H |].
  destruct (fltb (nth d _ fzero) (nth d x fzero)); (apply IH; [lia | exact H]).
Qed.

Lemma coord_step_mono f f' d st st' :
  f <= f' -> coord_step rand g xargs w m f d st = Ret st' ->
  coord_step rand g xargs w m f' d st = Ret st'.
Proof.
  intros Hle H; unfold coord_step, step_out in *.
  apply bind_Ret in H; destruct H as [LR [Hso H]].
  apply bind_Ret in Hso; destruct Hso as [LJ [HL Hso]].
  apply bind_Ret in Hso; destruct Hso as [RK [HR Hso]].
  injection Hso as <-.
  apply bind_Ret in H; destruct H as [x1k [Hsh H]].
  rewrite (step_out_left_mono _ _ _ _ _ _ _ Hle HL); cbn [bind].
  rewrite (step_out_right_mono _ _ _ _ _ _ _ Hle HR); cbn [bind].
  rewrite (shrink_mono _ _ _ _ _ _ _ _ _ Hle Hsh); cbn [bind].
  exact H.
Qed.

Lemma sweep_mono f f' N ds st st' :
  f <= f' -> sweep rand g xargs w m f N ds st = Ret st' ->
  sweep rand g xargs w m f' N ds st = Ret st'.
Proof.
  intros Hle; revert st; induction ds as [| d ds IH]; simpl; intros st H;
    [exact H |].
  apply bind_Ret in H; destruct H as [st1 [Hstep H]].
  rewrite (coord_step_mono _ _ _ _ _ Hle Hstep); cbn [bind].
  destruct (N <=? i st1); [exact H | apply IH; exact H].
Qed.

Lemma chain_loop_mono f f' N dim n n' st st' :
  f <= f' -> n <= n' ->
  chain_loop rand g xargs w m f N dim n st = Ret st' ->
  chain_loop rand g xargs w m f' N dim n' st = Ret st'.
Proof.
  intros Hle; revert n' st; induction n as [| n IH]; intros n' st Hn H;
    [discriminate |].
  destruct n' as [| n']; [lia |]; simpl in *.
  destruct (i st <? N); [| exact H].
  apply bind_Ret in H; destruct H as [st1 [Hsw H]].
  rewrite (sweep_mono _ _ _ _ _ _ Hle Hsw); cbn [bind].
  apply IH; [lia | exact H].
Qed.

(** A run that returns with some fuel returns the same with any more. *)
Lemma slicer_fuel_mono f f' dim x N r :
  f <= f' -> slicer rand g xargs w m f dim x N = Ret r ->
  slicer rand g xargs w m f' dim x N = Ret r.
Proof.
  intros Hle H; unfold slicer, slicer_run in *.
  apply bind_Ret in H; destruct H as [st' [H Hr]].
  apply bind_Ret in H; destruct H as [st0 [Hinit H]].
  rewrite Hinit; cbn [bind].
  rewrite (chain_loop_mono _ _ _ _ _ _ _ _ Hle Hle H); cbn [bind].
  exact Hr.
Qed.

End FuelMono.

(** * Termination

    Without rounding the step-out loops stop within their budgets, so that
    a run returns as soon as each of its shrinkages does. *)

Section Termination.

Context {F : Type} {NF : Num F} {EA : ExactArith F} {X : Type}.
Variable rand : nat -> F.
Variable g : list F -> X -> F.
Variable xargs : X.
Variable w : F.
Variable m : Z.

Add Ring Fring4 : ea_ring.

Lemma step_out_left_returns fuel way y L j :
  1 <= fuel -> (j < Z.of_nat fuel)%Z ->
  exists r, step_out_left g xargs w fuel way y L (of_int j) = Ret r.
Proof.
  revert L j; induction fuel as [| fuel IH]; intros L j H1 Hj; [lia |].
  simpl; destruct (fltb fzero (of_int j)) eqn:E; simpl; [| eauto].
  destruct (fltb y (g L xargs)); [| eauto].
  rewrite <- ea_of_int_0 in E; apply of_int_lt_inv in E.
  rewrite <- of_int_1, <- of_int_sub; apply IH; lia.
Qed.

Lemma step_out_right_returns fuel way y R k :
  1 <= fuel -> (k < Z.of_nat fuel)%Z ->
  exists r, step_out_right g xargs w fuel way y R (of_int k) = Ret r.
Proof.
  revert R k; induction fuel as [| fuel IH]; intros R k H1 Hk; [lia |].
  simpl; destruct (fltb fzero (of_int k)) eqn:E; simpl; [| eauto].
  destruct (fltb y (g R xargs)); [| eauto].
  rewrite <- ea_of_int_0 in E; apply of_int_lt_inv in E.
  rewrite <- of_int_1, <- of_int_sub; apply IH; lia.
Qed.

(** The step-out makes at most [m - 1] passes on each side. *)
Lemma step_out_returns fuel x way y U V :
  (1 <= m)%Z -> fltb V fzero = false -> fltb V fone = true ->
  (m <= Z.of_nat fuel)%Z ->
  exists r, step_out g xargs w m fuel x way y U V = Ret r.
Proof.
  intros Hm HV0 HV1 Hf; unfold step_out.
  destruct (budget_J_range m V Hm HV0 HV1) as (j & -> & Hj0 & Hjm).
  unfold budget_K; rewrite <- of_int_sub.
  destruct (step_out_left_returns fuel way y (bracket_L w x way U) j
              ltac:(lia) ltac:(lia)) as [LJ ->].
  destruct (step_out_right_returns fuel way y
              (bracket_R w (bracket_L w x way U) way) (m - 1 - j)%Z
              ltac:(lia) ltac:(lia)) as [RK ->].
  simpl; eauto.
Qed.

(** Draws are in [0, 1), every shrinkage accepts within [b] candidates,
    whatever point and bracket it starts from, and the fuel covers [b], [m]
    and [N]. *)
Variable b : nat.
Hypothesis rand_unit :
  forall k, fltb (rand k) fzero = false /\ fltb (rand k) fone = true.
Hypothesis shrink_bounded :
  forall d x k0 Lbar Rbar k,
    exists r,
      shrink rand g xargs b d x
        (fadd (g x xargs) (flog (rand k0))) Lbar Rbar k = Ret r.

Lemma coord_step_returns N dim fuel d st :
  (1 <= m)%Z -> (m <= Z.of_nat fuel)%Z -> b <= fuel ->
  wf N dim st -> i st < N ->
  exists st', coord_step rand g xargs w m fuel d st = Ret st'.
Proof.
  intros Hm Hf Hb Hwf Hi.
  destruct (coord_step rand g xargs w m fuel d st) as [st' | e |] eqn:E;
    [eauto | exfalso; eapply coord_step_no_raise; eauto |].
  exfalso; unfold coord_step in E.
  destruct (rand_unit (2 + draws st)) as [HV0 HV1].
  destruct (step_out_returns fuel (x0 st) (set_way d (way st))
              (fadd (g (x0 st) xargs) (flog (rand (draws st))))
              (rand (1 + draws st)) (rand (2 + draws st)) Hm HV0 HV1 Hf)
    as [LR Hso].
  rewrite Hso in E; cbn [bind] in E.
  destruct (shrink_bounded d (x0 st) (draws st) (fst (fst LR))
              (fst (snd LR)) (3 + draws st)) as [[x1 k'] Hsh].
  apply (shrink_mono _ _ _ _ fuel) in Hsh; [| exact Hb].
  rewrite Hsh in E; cbn [bind fst snd] in E.
  destruct LR as [[L J] [R K]].
  apply step_out_length in Hso;
    [| rewrite length_set_way, (wf_x0 _ _ _ Hwf), (wf_way _ _ _ Hwf); auto].
  destruct Hso as [HL HR].
  apply shrink_accepts in Hsh; [| simpl; congruence].
  destruct Hsh as (_ & Hx1 & _); simpl in Hx1.
  rewrite (set_row_ok _ _ _ dim) in E;
    [| apply (wf_rows _ _ _ Hwf)
     | rewrite Hx1, HL; apply (wf_x0 _ _ _ Hwf)
     | rewrite (wf_xs _ _ _ Hwf); exact Hi].
  rewrite set_item_ok in E by (rewrite (wf_lik _ _ _ Hwf); exact Hi).
  discriminate.
Qed.

Lemma sweep_returns N dim fuel ds st :
  (1 <= m)%Z -> (m <= Z.of_nat fuel)%Z -> b <= fuel ->
  wf N dim st -> i st < N ->
  exists st', sweep rand g xargs w m fuel N ds st = Ret st'.
Proof.
  intros Hm Hf Hb; revert st; induction ds as [| d ds IH]; simpl;
    intros st Hwf Hi; [eauto |].
  destruct (coord_step_returns N dim fuel d st Hm Hf Hb Hwf Hi)
    as [st1 Hstep].
  rewrite Hstep; cbn [bind].
  destruct (N <=? i st1) eqn:Hle; [eauto |].
  apply Nat.leb_gt in Hle.
  apply (coord_step_spec _ _ _ _ _ N dim) in Hstep; auto.
  apply IH; tauto.
Qed.

Lemma chain_loop_returns N dim fuel n st :
  (1 <= m)%Z -> (m <= Z.of_nat fuel)%Z -> b <= fuel -> 1 <= dim ->
  wf N dim st -> i st <= N -> N - i st < n ->
  exists st', chain_loop rand g xargs w m fuel N dim n st = Ret st'.
Proof.
  intros Hm Hf Hb Hdim; revert st; induction n as [| n IH];
    intros st Hwf Hi Hn; [lia |]; simpl.
  destruct (i st <? N) eqn:Hlt; [| eauto].
  apply Nat.ltb_lt in Hlt.
  destruct (sweep_returns N dim fuel (seq 0 dim) st Hm Hf Hb Hwf Hlt)
    as [st1 Hsw].
  rewrite Hsw; cbn [bind].
  apply sweep_steps in Hsw; [| exact Hlt].
  destruct Hsw as (ds1 & ds2 & Hds & Hs & Hl & Hle & Hend).
  assert (Hlen : length ds1 + length ds2 = dim).
  { rewrite <- length_app, <- Hds, length_seq; reflexivity. }
  apply (steps_spec _ _ _ _ _ N dim) in Hs; [| exact Hwf | lia].
  destruct Hs as (Hwf1 & _).
  apply IH; [exact Hwf1 | exact Hle |].
  destruct Hend as [-> | ->]; simpl in *; lia.
Qed.

(** A run on valid input returns once the fuel exceeds [b], [m] and [N]. *)
Theorem run_returns fuel dim x N :
  (1 <= m)%Z -> valid dim x N ->
  (m <= Z.of_nat fuel)%Z -> b <= fuel -> Z.to_nat N <= fuel ->
  exists chain lik, slicer rand g xargs w m fuel dim x N = Ret (chain, lik).
Proof.
  intros Hm (HN & Hdim & Hx) Hf Hb HfN.
  destruct (slicer_init_ok g xargs dim x N HN ltac:(lia) Hx)
    as (st0 & Hinit & Hwf & Hi0 & _).
  unfold slicer, slicer_run; rewrite Hinit; cbn [bind].
  destruct (chain_loop_returns (Z.to_nat N) (Z.to_nat dim) fuel fuel st0
              Hm Hf Hb ltac:(lia) Hwf ltac:(lia) ltac:(lia)) as [st' ->].
  simpl; eauto.
Qed.

End Termination.

(** On a flat density every candidate is accepted at once, and the run
    returns with any fuel from 10 on. *)
Lemma flat_density_returns fuel :
  10 <= fuel ->
  exists chain lik,
    slicer (NF := Rat.num Rat.log_lin) RDemo.rand RDemo.flat tt Rat.half 10
      fuel 2 RDemo.start 4 = Ret (chain, lik).
Proof.
  intros Hf.
  apply (run_returns (NF := Rat.num Rat.log_lin)
           (EA := Rat_exact Rat.log_lin) RDemo.rand RDemo.flat tt Rat.half 10
           1).
  - intros k; unfold RDemo.rand; destruct (Nat.even k); split; reflexivity.
  - intros d x k0 Lbar Rbar k; cbn [shrink].
    assert (E : Rat.ltb (Qcplus (RDemo.flat x tt)
                                (Rat.log_lin (RDemo.rand k0)))
                        (Q2Qc 0) = true).
    { unfold RDemo.rand; destruct (Nat.even k0); reflexivity. }
    cbn [fltb fadd flog Rat.num]; unfold RDemo.flat at 2.
    rewrite E; eauto.
  - lia.
  - exact rdemo_valid.
  - lia.
  - lia.
  - simpl; lia.
Qed.

(** * Binary64: no expansion with [m = 0]

    With rounding, NaN and infinities as well: for [m = 0] the budget [J] is
    a zero or NaN and [K] is -1 or NaN, neither loop is entered, and the
    step-out returns the bracket it first placed. *)
Lemma b64_zero_budget_no_expansion (ln : spec_float -> spec_float)
  (X : Type) (g : list spec_float -> X -> spec_float) (xargs : X)
  (w : spec_float) (fuel : nat) (x way : list spec_float)
  (y U V : spec_float) :
  step_out (NF := B64.num ln) g xargs w 0 (S fuel) x way y U V =
  Ret ((bracket_L (NF := B64.num ln) w x way U,
        budget_J (NF := B64.num ln) 0 V),
       (bracket_R (NF := B64.num ln) w
          (bracket_L (NF := B64.num ln) w x way U) way,
        budget_K (NF := B64.num ln) 0 (budget_J (NF := B64.num ln) 0 V))).
Proof.
  unfold step_out; cbn [step_out_left step_out_right].
  assert (HJ : SFltb B64.zero (budget_J (NF := B64.num ln) 0 V) = false)
    by (destruct V as [s | s | | s mv e]; reflexivity).
  assert (HK : SFltb B64.zero
                 (budget_K (NF := B64.num ln) 0
                    (budget_J (NF := B64.num ln) 0 V)) = false)
    by (destruct V as [s | s | | s mv e]; try reflexivity;
        destruct s; reflexivity).
  cbn [fltb fzero B64.num].
  rewrite HJ; cbn [andb bind]; rewrite HK; reflexivity.
Qed.

(** * Further properties of [slicer]: edges of the loop nest *)

Section Edges.

Context {F : Type} {NF : Num F} {X : Type}.
Variable rand : nat -> F.
Variable g : list F -> X -> F.
Variable xargs : X.
Variable w : F.
Variable m : Z.

(** X1.  With [N = 1] the [while] loop is not entered: the run returns the
    initial point alone, with its log-density, and has made no draw. *)
Theorem single_row_run fuel dim x :
  (0 <= dim)%Z -> length x = Z.to_nat dim ->
  slicer rand g xargs w m (S fuel) dim x 1 = Ret ([x], [g x xargs]) /\
  exists st, slicer_run rand g xargs w m (S fuel) dim x 1 = Ret st /\
             draws st = 0 /\ i st = 1.
Proof.
  intros Hdim Hx.
  assert (E : slicer_init g xargs dim x 1 =
              Ret (mkState [x] [g x xargs] x (repeat fzero (Z.to_nat dim))
                     1 0)).
  { unfold slicer_init.
    replace (dim <? 0)%Z with false by (symmetry; apply Z.ltb_ge; lia).
    simpl; unfold set_row; simpl.
    rewrite repeat_length, Hx, Nat.eqb_refl; reflexivity. }
  unfold slicer, slicer_run; rewrite E; simpl.
  split; [reflexivity | eauto].
Qed.

(** X2.  With [dim = 0] the [for] loop has no pass and [i] never moves: a
    run with [N >= 2] returns for no amount of fuel. *)
Theorem no_coordinate_never_returns fuel N :
  (2 <= N)%Z -> slicer rand g xargs w m fuel 0 [] N = Fuel.
Proof.
  intros HN.
  destruct (slicer_init_ok g xargs 0 [] N ltac:(lia) ltac:(lia) eq_refl)
    as (st0 & Hinit & _ & Hi0 & _).
  unfold slicer, slicer_run; rewrite Hinit; cbn [bind].
  assert (H : forall n, chain_loop rand g xargs w m fuel (Z.to_nat N)
                          (Z.to_nat 0) n st0 = Fuel).
  { induction n as [| n IH]; simpl; [reflexivity |].
    replace (i st0 <? Z.to_nat N) with true
      by (symmetry; apply Nat.ltb_lt; lia).
    simpl in IH; exact IH. }
  rewrite H; reflexivity.
Qed.


(** X4.  When the step-out returns, each of its loops has stopped on its
    own test: on either side the budget is used up, or the density at the
    end of the bracket is not above the slice height. *)
Theorem step_out_stops fuel x way y U V L' J' R' K' :
  step_out g xargs w m fuel x way y U V = Ret ((L', J'), (R', K')) ->
  (fltb fzero J' = false \/ fltb y (g L' xargs) = false) /\
  (fltb fzero K' = false \/ fltb y (g R' xargs) = false).
Proof.
  intros H; unfold step_out in H.
  apply bind_Ret in H; destruct H as [[L1 J1] [HL H]].
  apply bind_Ret in H; destruct H as [[R1 K1] [HR H]].
  injection H as -> -> -> ->; split.
  - clear HR; revert HL.
    generalize (budget_J m V); generalize (bracket_L w x way U).
    induction fuel as [| fuel IH]; simpl; intros L J H; [discriminate |].
    destruct (fltb fzero J && fltb y (g L xargs)) eqn:E;
      [exact (IH _ _ H) |].
    injection H as <- <-; apply andb_false_iff; exact E.
  - clear HL; revert HR; generalize (budget_K m (budget_J m V)).
    generalize (bracket_R w (bracket_L w x way U) way).
    induction fuel as [| fuel IH]; simpl; intros R K H; [discriminate |].
    destruct (fltb fzero K && fltb y (g R xargs)) eqn:E;
      [exact (IH _ _ H) |].
    injection H as <- <-; apply andb_false_iff; exact E.
Qed.

(** X5.  For [N >= 2] the first two likelihoods are both the log-density of
    the initial point: [likelies[1] = likelies[0] = g(x0, xargs)]. *)
Theorem first_likelihood_repeated fuel dim x N chain lik :
  valid dim x N -> (2 <= N)%Z ->
  slicer rand g xargs w m fuel dim x N = Ret (chain, lik) ->
  nth 0 lik fzero = g x xargs /\ nth 1 lik fzero = g x xargs.
Proof.
  intros (HN & Hdim & Hx) H2 H.
  apply slicer_Ret in H; destruct H as (st' & Hrun & <- & <-).
  destruct (slicer_init_ok g xargs dim x N HN ltac:(lia) Hx)
    as (st0 & Hinit & Hwf0 & Hi0 & _ & Hx0 & _ & Hl0).
  destruct (run_step _ _ _ _ _ fuel dim x N st' 1 HN ltac:(lia) Hx Hrun
              ltac:(lia))
    as (pre & post & Hpre & _ & Hstep & Hwf & Hi & _ & _ & Hfr).
  unfold state_after in Hpre; rewrite Hinit in Hpre; simpl in Hpre.
  injection Hpre as <-.
  apply (coord_step_spec _ _ _ _ _ _ _ _ _ _ _ Hwf) in Hstep; [| lia].
  destruct Hstep as (_ & _ & _ & _ & Hlk & _).
  destruct (Hfr 0 ltac:(lia)) as [_ ->]; destruct (Hfr 1 ltac:(lia)) as [_ ->].
  rewrite Hlk, Hi0, Hx0; split.
  - rewrite nth_upd_neq by lia; exact Hl0.
  - apply nth_upd_eq; rewrite (wf_lik _ _ _ Hwf0); lia.
Qed.

End Edges.

(** * Further properties: where a step can go, without rounding *)

Section Order.

Context {F : Type} {NF : Num F} {EA : ExactArith F}.

Add Ring Fring5 : ea_ring.

(** [a <= b] is [fltb b a = false]. *)
Lemma le_refl' a : fltb a a = false.
Proof. apply ea_lt_irrefl. Qed.








End Order.

Section Reach.

Context {F : Type} {NF : Num F} {EA : ExactArith F} {X : Type}.
Variable rand : nat -> F.
Variable g : list F -> X -> F.
Variable xargs : X.
Variable w : F.
Variable m : Z.

Add Ring Fring6 : ea_ring.

Hypothesis rand_unit :
  forall k, fltb (rand k) fzero = false /\ fltb (rand k) fone = true.





End Reach.

Section StepSize.

Context {F : Type} {NF : Num F} {EA : ExactArith F} {X : Type}.
Variable rand : nat -> F.
Variable g : list F -> X -> F.
Variable xargs : X.
Variable w : F.
Variable m : Z.

Add Ring Fring7 : ea_ring.




Hypothesis rand_unit :
  forall k, fltb (rand k) fzero = false /\ fltb (rand k) fone = true.




End StepSize.

(** * Further properties: a longer run extends a shorter one *)

Lemma firstn_upd {A : Type} (n j : nat) (v : A) (l : list A) :
  firstn n (upd j v l) = upd j v (firstn n l).
Proof.
  revert j l; induction n as [| n IH]; intros [| j] [| h t]; simpl;
    try reflexivity.
  rewrite IH; reflexivity.
Qed.

Lemma firstn_repeat' {A : Type} (n k : nat) (a : A) :
  firstn n (repeat a k) = repeat a (Nat.min n k).
Proof.
  revert k; induction n as [| n IH]; intros [| k]; simpl; try reflexivity.
  rewrite IH; reflexivity.
Qed.

Lemma set_row_firstn {A : Type} (n j : nat) (v : list A) (xs xs' : list (list A)) :
  j < n -> set_row j v xs = Ret xs' ->
  set_row j v (firstn n xs) = Ret (firstn n xs').
Proof.
  intros Hj; unfold set_row; rewrite nth_error_firstn.
  replace (j <? n) with true by (symmetry; apply Nat.ltb_lt; exact Hj).
  destruct (nth_error xs j) as [row |]; [| discriminate].
  destruct (length v =? length row).
  - intros H; injection H as <-; rewrite firstn_upd; reflexivity.
  - destruct v as [| a [| b v]]; try discriminate.
    intros H; injection H as <-; rewrite firstn_upd; reflexivity.
Qed.

Lemma set_item_firstn {A : Type} (n j : nat) (v : A) (l l' : list A) :
  j < n -> set_item j v l = Ret l' ->
  set_item j v (firstn n l) = Ret (firstn n l').
Proof.
  intros Hj; unfold set_item; rewrite nth_error_firstn.
  replace (j <? n) with true by (symmetry; apply Nat.ltb_lt; exact Hj).
  destruct (nth_error l j); [| discriminate].
  intros H; injection H as <-; rewrite firstn_upd; reflexivity.
Qed.

Section Prefix.

Context {F : Type} {NF : Num F} {X : Type}.
Variable rand : nat -> F.
Variable g : list F -> X -> F.
Variable xargs : X.
Variable w : F.
Variable m : Z.

(** A coordinate step looks at the arrays only to write row [i]. *)
Lemma coord_step_truncate n fuel d st st1 :
  i st < n -> coord_step rand g xargs w m fuel d st = Ret st1 ->
  coord_step rand g xargs w m fuel d (truncate n st) = Ret (truncate n st1).
Proof.
  intros Hi H; unfold coord_step in *; cbn [truncate x0 way draws i xs likelies].
  apply bind_Ret in H; destruct H as [LR [Hso H]]; rewrite Hso; cbn [bind].
  apply bind_Ret in H; destruct H as [x1k [Hsh H]]; rewrite Hsh; cbn [bind].
  apply bind_Ret in H; destruct H as [xs' [Hrow H]].
  apply bind_Ret in H; destruct H as [lk' [Hitem H]].
  rewrite (set_row_firstn n _ _ _ _ Hi Hrow); cbn [bind].
  rewrite (set_item_firstn n _ _ _ _ Hi Hitem); cbn [bind].
  injection H as <-; reflexivity.
Qed.

Lemma sweep_frame fuel N dim ds st st2 :
  wf N dim st -> i st < N ->
  sweep rand g xargs w m fuel N ds st = Ret st2 ->
  wf N dim st2 /\ i st <= i st2 <= N /\
  forall j, j < i st ->
            nth j (xs st2) [] = nth j (xs st) [] /\
            nth j (likelies st2) fzero = nth j (likelies st) fzero.
Proof.
  intros Hwf Hi H.
  apply sweep_steps in H; [| exact Hi].
  destruct H as (ds1 & ds2 & _ & Hs & Hl & Hle & _).
  apply (steps_spec _ _ _ _ _ N dim) in Hs; [| exact Hwf | lia].
  destruct Hs as (Hwf2 & _ & _ & Hfr).
  split; [exact Hwf2 |]; split; [lia | exact Hfr].
Qed.

Lemma chain_loop_frame fuel N dim n st stN :
  wf N dim st -> i st <= N ->
  chain_loop rand g xargs w m fuel N dim n st = Ret stN ->
  wf N dim stN /\
  forall j, j < i st ->
            nth j (xs stN) [] = nth j (xs st) [] /\
            nth j (likelies stN) fzero = nth j (likelies st) fzero.
Proof.
  revert st; induction n as [| n IH]; simpl; intros st Hwf Hi H;
    [discriminate |].
  destruct (i st <? N) eqn:Hb.
  - apply Nat.ltb_lt in Hb.
    apply bind_Ret in H; destruct H as [st2 [Hsw H]].
    apply (sweep_frame _ _ dim) in Hsw; auto.
    destruct Hsw as (Hwf2 & Hi2 & Hfr2).
    apply IH in H; [| exact Hwf2 | lia].
    destruct H as [HwfN HfrN]; split; [exact HwfN |].
    intros j Hj; destruct (HfrN j ltac:(lia)) as [-> ->]; apply Hfr2; exact Hj.
  - injection H as <-; auto.
Qed.

(** A sweep of the run for [N], seen from the run for [N' <= N]: either it
    is the same sweep, or row [N'] is reached within it, where the shorter
    run breaks. *)
Lemma sweep_prefix fuel N N' dim ds st st2 :
  wf N dim st -> i st < N' -> N' <= N ->
  sweep rand g xargs w m fuel N ds st = Ret st2 ->
  (i st2 < N' /\
   sweep rand g xargs w m fuel N' ds (truncate N' st) =
     Ret (truncate N' st2)) \/
  (exists st1,
      sweep rand g xargs w m fuel N' ds (truncate N' st) =
        Ret (truncate N' st1) /\
      i st1 = N' /\ wf N dim st1 /\ N' <= i st2 /\
      forall j, j < N' ->
                nth j (xs st2) [] = nth j (xs st1) [] /\
                nth j (likelies st2) fzero = nth j (likelies st1) fzero).
Proof.
  revert st; induction ds as [| d ds IH]; simpl; intros st Hwf Hi HN H.
  - injection H as <-; left; split; [exact Hi | reflexivity].
  - apply bind_Ret in H; destruct H as [st1 [Hstep H]].
    rewrite (coord_step_truncate N' _ _ _ _ Hi Hstep); cbn [bind].
    cbn [truncate i].
    pose proof Hstep as Hspec.
    apply (coord_step_spec _ _ _ _ _ N dim) in Hspec; [| exact Hwf | lia].
    destruct Hspec as (Hwf1 & Hi1 & _).
    destruct (N' <=? i st1) eqn:Hb'.
    + apply Nat.leb_le in Hb'; right; exists st1.
      split; [reflexivity |]; split; [lia |]; split; [exact Hwf1 |].
      destruct (N <=? i st1) eqn:Hb.
      * injection H as <-; auto.
      * apply Nat.leb_gt in Hb.
        apply (sweep_frame _ _ dim) in H; auto.
        destruct H as (_ & Hle & Hfr); split; [lia |].
        intros j Hj; apply Hfr; lia.
    + apply Nat.leb_gt in Hb'.
      replace (N <=? i st1) with false in H
        by (symmetry; apply Nat.leb_gt; lia).
      apply IH; auto.
Qed.

Lemma chain_loop_prefix fuel N N' dim n st stN :
  wf N dim st -> i st <= N' -> N' <= N ->
  chain_loop rand g xargs w m fuel N dim n st = Ret stN ->
  exists st1,
    chain_loop rand g xargs w m fuel N' dim n (truncate N' st) =
      Ret (truncate N' st1) /\
    wf N dim st1 /\
    forall j, j < N' ->
              nth j (xs stN) [] = nth j (xs st1) [] /\
              nth j (likelies stN) fzero = nth j (likelies st1) fzero.
Proof.
  revert st; induction n as [| n IH]; intros st Hwf Hi HN H;
    [discriminate |].
  cbn [chain_loop truncate i] in *.
  destruct (i st <? N') eqn:Hb'.
  - apply Nat.ltb_lt in Hb'.
    replace (i st <? N) with true in H by (symmetry; apply Nat.ltb_lt; lia).
    apply bind_Ret in H; destruct H as [st2 [Hsw H]].
    pose proof Hsw as Hfr2.
    apply (sweep_frame _ _ dim) in Hfr2; [| exact Hwf | lia].
    destruct Hfr2 as (Hwf2 & Hi2 & _).
    apply (sweep_prefix _ _ N' dim) in Hsw; auto.
    destruct Hsw as [[Hlt Hsw] | (st1 & Hsw & Hi1 & Hwf1 & Hge & Hrows)].
    + fold (truncate N' st); rewrite Hsw; cbn [bind].
      apply IH; auto; lia.
    + fold (truncate N' st); rewrite Hsw; cbn [bind].
      exists st1; split; [| split; [exact Hwf1 |]].
      * destruct n as [| n]; [discriminate |].
        cbn [chain_loop truncate i].
        replace (i st1 <? N') with false
          by (symmetry; apply Nat.ltb_ge; lia).
        reflexivity.
      * apply (chain_loop_frame _ _ dim) in H; [| exact Hwf2 | lia].
        destruct H as [_ Hfr]; intros j Hj.
        destruct (Hfr j ltac:(lia)) as [-> ->]; apply Hrows; exact Hj.
  - apply Nat.ltb_ge in Hb'; exists st; split; [reflexivity |].
    split; [exact Hwf |].
    apply (chain_loop_frame _ _ dim (S n)) in H; [| exact Hwf | lia].
    destruct H as [_ Hfr]; intros j Hj; apply Hfr; lia.
Qed.

Lemma firstn_nth_eq {A : Type} (n : nat) (l l' : list A) (d : A) :
  length l = length l' ->
  (forall j, j < n -> nth j l d = nth j l' d) ->
  firstn n l = firstn n l'.
Proof.
  revert l l'; induction n as [| n IH]; intros [| a l] [| b l'] Hlen H;
    simpl in *; try reflexivity; try discriminate.
  f_equal.
  - apply (H 0); lia.
  - apply IH; [lia |]; intros j Hj; apply (H (S j)); lia.
Qed.

(** X9.  On the same uniform source, the run for [N' <= N] returns the
    first [N'] rows and likelihoods of the run for [N]. *)
Theorem shorter_run_is_prefix fuel dim x N N' chain lik :
  valid dim x N -> (1 <= N' <= N)%Z ->
  slicer rand g xargs w m fuel dim x N = Ret (chain, lik) ->
  slicer rand g xargs w m fuel dim x N' =
    Ret (firstn (Z.to_nat N') chain, firstn (Z.to_nat N') lik).
Proof.
  intros (HN & Hdim & Hx) HN' H.
  apply slicer_Ret in H; destruct H as (stN & Hrun & <- & <-).
  unfold slicer, slicer_run in *.
  apply bind_Ret in Hrun; destruct Hrun as [st0 [Hinit Hloop]].
  destruct (slicer_init_ok g xargs dim x N HN ltac:(lia) Hx)
    as (st0' & Hinit' & Hwf & Hi0 & _).
  rewrite Hinit in Hinit'; injection Hinit' as <-.
  assert (Hinit' : slicer_init g xargs dim x N' =
                   Ret (truncate (Z.to_nat N') st0)).
  { revert Hinit; unfold slicer_init.
    replace (N <? 0)%Z with false by (symmetry; apply Z.ltb_ge; lia).
    replace (N' <? 0)%Z with false by (symmetry; apply Z.ltb_ge; lia).
    replace (dim <? 0)%Z with false by (symmetry; apply Z.ltb_ge; lia).
    cbn [orb]; intros Hinit.
    apply bind_Ret in Hinit; destruct Hinit as [xs0 [Hrow Hinit]].
    apply bind_Ret in Hinit; destruct Hinit as [lk0 [Hitem Hinit]].
    injection Hinit as <-.
    apply (set_row_firstn (Z.to_nat N')) in Hrow; [| lia].
    apply (set_item_firstn (Z.to_nat N')) in Hitem; [| lia].
    rewrite firstn_repeat' in Hrow; rewrite firstn_repeat' in Hitem.
    replace (Nat.min (Z.to_nat N') (Z.to_nat N)) with (Z.to_nat N')
      in Hrow, Hitem by lia.
    rewrite Hrow; cbn [bind]; rewrite Hitem; reflexivity. }
  rewrite Hinit'; cbn [bind].
  pose proof Hloop as Hfr.
  apply (chain_loop_frame _ (Z.to_nat N) (Z.to_nat dim)) in Hfr;
    [| exact Hwf | lia].
  destruct Hfr as [HwfN _].
  apply (chain_loop_prefix _ (Z.to_nat N) (Z.to_nat N') (Z.to_nat dim))
    in Hloop; [| exact Hwf | lia | lia].
  destruct Hloop as (st1 & -> & Hwf1 & Hrows).
  cbn [bind truncate xs likelies].
  f_equal; f_equal.
  - apply (firstn_nth_eq _ _ _ []).
    + rewrite (wf_xs _ _ _ Hwf1), (wf_xs _ _ _ HwfN); reflexivity.
    + intros j Hj; symmetry; apply Hrows; exact Hj.
  - apply (firstn_nth_eq _ _ _ fzero).
    + rewrite (wf_lik _ _ _ Hwf1), (wf_lik _ _ _ HwfN); reflexivity.
    + intros j Hj; symmetry; apply Hrows; exact Hj.
Qed.

End Prefix.

(** * Further properties: which loops can run for ever *)

Section Halting.

Context {F : Type} {NF : Num F} {EA : ExactArith F} {X : Type}.
Variable rand : nat -> F.
Variable g : list F -> X -> F.
Variable xargs : X.
Variable w : F.
Variable m : Z.



End Halting.

(** * Further properties: the direction vector *)

Section Way.

Context {F : Type} {NF : Num F} {X : Type}.
Variable rand : nat -> F.
Variable g : list F -> X -> F.
Variable xargs : X.
Variable w : F.
Variable m : Z.

(** Both instances multiply 0.0 by 0.0 and by 1.0 to 0.0. *)
Hypothesis zero_zero : fmul fzero fzero = fzero.
Hypothesis zero_one : fmul fzero fone = fzero.

Lemma set_way_one_hot d dim way0 :
  length way0 = dim ->
  Forall (fun a => a = fzero \/ a = fone) way0 ->
  set_way d way0 = upd d fone (repeat fzero dim).
Proof.
  intros Hlen H01; unfold set_way; f_equal.
  subst dim; induction H01 as [| a l Ha Hl IH]; simpl; [reflexivity |].
  rewrite IH; f_equal; destruct Ha as [-> | ->]; assumption.
Qed.

Lemma one_hot_01 d dim :
  Forall (fun a : F => a = fzero \/ a = fone) (upd d fone (repeat fzero dim)).
Proof.
  apply Forall_upd; [right; reflexivity |].
  apply Forall_forall; intros a Ha; apply repeat_spec in Ha; auto.
Qed.

Lemma steps_way N dim fuel ds st st' :
  wf N dim st -> i st + length ds <= N ->
  Forall (fun a => a = fzero \/ a = fone) (way st) ->
  steps rand g xargs w m fuel ds st = Ret st' ->
  way st' = match rev ds with
            | [] => way st
            | d :: _ => upd d fone (repeat fzero dim)
            end.
Proof.
  revert st; induction ds as [| d ds IH]; simpl; intros st Hwf Hi H01 H.
  - injection H as <-; reflexivity.
  - apply bind_Ret in H; destruct H as [st1 [Hstep H]].
    apply (coord_step_spec _ _ _ _ _ N dim) in Hstep; [| exact Hwf | lia].
    destruct Hstep as (Hwf1 & Hi1 & _ & _ & _ & Hw1 & _).
    rewrite (set_way_one_hot d dim) in Hw1
      by (auto; apply (wf_way _ _ _ Hwf)).
    apply IH in H; [| exact Hwf1 | lia | rewrite Hw1; apply one_hot_01].
    rewrite H, Hw1.
    destruct (rev ds) as [| d' l] eqn:E; simpl; reflexivity.
Qed.

(** X12.  Between the steps [way] is one-hot: after step [t >= 1] of a run
    it is 1.0 at the coordinate [(t-1) mod dim] of that step and 0.0
    elsewhere. *)
Theorem way_one_hot fuel dim x N t st :
  valid dim x N -> 1 <= t < Z.to_nat N ->
  state_after rand g xargs w m fuel dim x N t = Ret st ->
  way st = upd ((t - 1) mod Z.to_nat dim) fone (repeat fzero (Z.to_nat dim)).
Proof.
  intros (HN & Hdim & Hx) Ht H.
  destruct (slicer_init_ok g xargs dim x N HN ltac:(lia) Hx)
    as (st0 & Hinit & Hwf & Hi0 & _).
  unfold state_after in H; rewrite Hinit in H; cbn [bind] in H.
  assert (Hw0 : way st0 = repeat fzero (Z.to_nat dim)).
  { revert Hinit; unfold slicer_init.
    replace (N <? 0)%Z with false by (symmetry; apply Z.ltb_ge; lia).
    replace (dim <? 0)%Z with false by (symmetry; apply Z.ltb_ge; lia).
    cbn [orb]; intros Hinit.
    apply bind_Ret in Hinit; destruct Hinit as [xs0 [_ Hinit]].
    apply bind_Ret in Hinit; destruct Hinit as [lk0 [_ Hinit]].
    injection Hinit as <-; reflexivity. }
  apply (steps_way (Z.to_nat N) (Z.to_nat dim)) in H;
    [| exact Hwf | rewrite length_dirs; lia |].
  - rewrite H; replace t with ((t - 1) + 1) at 1 by lia.
    rewrite dirs_app, rev_app_distr; reflexivity.
  - rewrite Hw0; apply Forall_forall; intros a Ha.
    apply repeat_spec in Ha; auto.
Qed.

End Way.

(** * Further properties: the other components, in binary64 *)

Lemma SFsub_diag s mx e :
  SFsub B64.prec B64.emax (S754_finite s mx e) (S754_finite s mx e) =
  S754_zero false.
Proof.
  unfold SFsub; rewrite Z.sub_diag; reflexivity.
Qed.

Lemma b64_same_finite a b : b64_same a b -> b64_finite a = true.
Proof. intros [[_ H] | (s & s' & -> & _)]; [exact H | reflexivity]. Qed.

Lemma b64_same_refl a : b64_finite a = true -> b64_same a a.
Proof. intros H; left; auto. Qed.

Lemma b64_same_eqb a b : b64_same a b -> SFeqb a b = true.
Proof.
  intros [[<- H] | (s & s' & -> & ->)]; [| reflexivity].
  destruct a as [s | s | | s mx e]; try discriminate; [reflexivity |].
  unfold SFeqb, SFcompare.
  destruct s; rewrite Z.compare_refl, Pos.compare_cont_refl; reflexivity.
Qed.

(** Subtracting or adding a zero keeps the value. *)
Lemma b64_sub_zero a b s :
  b64_same a b -> b64_same (SFsub B64.prec B64.emax a (S754_zero s)) b.
Proof.
  intros [[<- H] | (s1 & s2 & -> & ->)].
  - destruct a as [s1 | s1 | | s1 mx e]; try discriminate.
    + right; destruct s1, s; simpl; eauto.
    + left; split; reflexivity.
  - right; destruct s1, s; simpl; eauto.
Qed.

Lemma b64_add_zero a b s :
  b64_same a b -> b64_same (SFadd B64.prec B64.emax a (S754_zero s)) b.
Proof.
  intros [[<- H] | (s1 & s2 & -> & ->)].
  - destruct a as [s1 | s1 | | s1 mx e]; try discriminate.
    + right; destruct s1, s; simpl; eauto.
    + left; split; reflexivity.
  - right; destruct s1, s; simpl; eauto.
Qed.

(** Two floats of the same value differ by a zero. *)
Lemma b64_sub_same a b c :
  b64_same a c -> b64_same b c ->
  exists s, SFsub B64.prec B64.emax b a = S754_zero s.
Proof.
  intros [[<- Ha] | (s1 & s2 & -> & ->)] [[Hb Hb'] | (s3 & s4 & -> & Hc)].
  - subst b; destruct a as [s | s | | s mx e]; try discriminate.
    + destruct s; simpl; eauto.
    + rewrite SFsub_diag; eauto.
  - subst a; destruct s3, s4; simpl; eauto.
  - subst b; destruct s1, s2; simpl; eauto.
  - destruct s1, s3; simpl; eauto.
Qed.

(** A finite factor times a zero is a zero. *)
Lemma b64_mul_zero_r u s :
  b64_finite u = true ->
  exists s', SFmul B64.prec B64.emax u (S754_zero s) = S754_zero s'.
Proof.
  destruct u as [s1 | s1 | | s1 mx e]; try discriminate; simpl; eauto.
Qed.

Lemma b64_mul_zero_l u s :
  b64_finite u = true ->
  exists s', SFmul B64.prec B64.emax (S754_zero s) u = S754_zero s'.
Proof.
  destruct u as [s1 | s1 | | s1 mx e]; try discriminate; simpl; eauto.
Qed.

(** A draw in [0, 1) is finite. *)
Lemma b64_unit_finite u :
  SFltb u B64.zero = false -> SFltb u B64.one = true -> b64_finite u = true.
Proof.
  destruct u as [s | [|] | | s mx e]; simpl; intros H0 H1;
    try reflexivity; discriminate.
Qed.

Section B64OffAxis.

Variable ln : spec_float -> spec_float.
Variable X : Type.
Variable rand : nat -> spec_float.
Variable g : list spec_float -> X -> spec_float.
Variable xargs : X.
Variable w : spec_float.
Variable m : Z.

Local Abbreviation NFb := (B64.num ln).

Hypothesis w_finite : b64_finite w = true.
Hypothesis rand_unit :
  forall k, SFltb (rand k) B64.zero = false /\ SFltb (rand k) B64.one = true.

Lemma b64_rand_finite k : b64_finite (rand k) = true.
Proof. destruct (rand_unit k); apply b64_unit_finite; assumption. Qed.

(** One pass of a step-out loop keeps a component in which [way] is 0.0. *)
Lemma b64_expand_same (sub : bool) way L j c :
  length L = length way -> j < length L ->
  nth j way B64.zero = B64.zero -> b64_same (nth j L B64.zero) c ->
  b64_same
    (nth j (bcast (if sub then SFsub B64.prec B64.emax
                   else SFadd B64.prec B64.emax) L
              (map (SFmul B64.prec B64.emax w) way)) B64.zero) c.
Proof.
  intros Hlen Hj Hway Hc.
  rewrite nth_bcast by (rewrite ?length_map; auto).
  rewrite nth_map_in by lia; rewrite Hway.
  destruct (b64_mul_zero_r w false w_finite) as [s Hs].
  fold B64.zero in Hs; rewrite Hs.
  destruct sub; [apply b64_sub_zero | apply b64_add_zero]; exact Hc.
Qed.

Lemma b64_step_out_left_same fuel way y L J L' J' j c :
  length L = length way -> j < length L ->
  nth j way B64.zero = B64.zero -> b64_same (nth j L B64.zero) c ->
  step_out_left (NF := NFb) g xargs w fuel way y L J = Ret (L', J') ->
  b64_same (nth j L' B64.zero) c.
Proof.
  revert L J; induction fuel as [| fuel IH]; simpl; intros L J Hlen Hj Hway Hc H;
    [discriminate |].
  destruct (SFltb B64.zero J && SFltb y (g L xargs)).
  - apply IH in H; auto.
    + rewrite length_bcast; rewrite ?length_map; auto.
    + rewrite length_bcast; rewrite ?length_map; auto.
    + apply (b64_expand_same true); auto.
  - injection H as <- _; exact Hc.
Qed.

Lemma b64_step_out_right_same fuel way y R K R' K' j c :
  length R = length way -> j < length R ->
  nth j way B64.zero = B64.zero -> b64_same (nth j R B64.zero) c ->
  step_out_right (NF := NFb) g xargs w fuel way y R K = Ret (R', K') ->
  b64_same (nth j R' B64.zero) c.
Proof.
  revert R K; induction fuel as [| fuel IH]; simpl; intros R K Hlen Hj Hway Hc H;
    [discriminate |].
  destruct (SFltb B64.zero K && SFltb y (g R xargs)).
  - apply IH in H; auto.
    + rewrite length_bcast; rewrite ?length_map; auto.
    + rewrite length_bcast; rewrite ?length_map; auto.
    + apply (b64_expand_same false); auto.
  - injection H as <- _; exact Hc.
Qed.

(** The candidates keep a component on which the two ends agree. *)
Lemma b64_shrink_same fuel d x y Lbar Rbar k x1 k' j c :
  length Lbar = length Rbar -> j < length Lbar ->
  b64_same (nth j Lbar B64.zero) c -> b64_same (nth j Rbar B64.zero) c ->
  shrink (NF := NFb) rand g xargs fuel d x y Lbar Rbar k = Ret (x1, k') ->
  b64_same (nth j x1 B64.zero) c.
Proof.
  revert Lbar Rbar k; induction fuel as [| fuel IH]; simpl;
    intros Lbar Rbar k Hlen Hj HL HR H; [discriminate |].
  set (cand := bcast (SFadd B64.prec B64.emax) Lbar
                 (map (SFmul B64.prec B64.emax (rand k))
                    (bcast (SFsub B64.prec B64.emax) Rbar Lbar))) in *.
  assert (Hc : length cand = length Lbar).
  { unfold cand; apply length_bcast.
    rewrite length_map, length_bcast; auto. }
  assert (Hcj : b64_same (nth j cand B64.zero) c).
  { unfold cand.
    rewrite nth_bcast by (rewrite ?length_map, ?length_bcast; auto).
    rewrite nth_map_in by (rewrite length_bcast; auto; lia).
    rewrite nth_bcast by (auto; lia).
    destruct (b64_sub_same _ _ _ HL HR) as [s ->].
    destruct (b64_mul_zero_r (rand k) s (b64_rand_finite k)) as [s' ->].
    apply b64_add_zero; exact HL. }
  destruct (SFltb y (g cand xargs)).
  - injection H as <- _; exact Hcj.
  - destruct (SFltb (nth d cand B64.zero) (nth d x B64.zero)).
    + eapply IH; [| | | | exact H]; auto; congruence.
    + eapply IH; [| | | | exact H]; auto; congruence.
Qed.

Lemma b64_coord_step_same N dim fuel d st st' j :
  wf N dim st -> i st < N -> d < dim -> j < dim -> j <> d ->
  Forall (fun a => a = B64.zero \/ a = B64.one) (way st) ->
  b64_finite (nth j (x0 st) B64.zero) = true ->
  coord_step (NF := NFb) rand g xargs w m fuel d st = Ret st' ->
  b64_same (nth j (x0 st') B64.zero) (nth j (x0 st) B64.zero).
Proof.
  intros Hwf Hi Hd Hj Hjd H01 Hfin H.
  pose proof (wf_x0 _ _ _ Hwf) as Hx0; pose proof (wf_way _ _ _ Hwf) as Hway.
  unfold coord_step in H.
  apply bind_Ret in H; destruct H as [[[L' J'] [R' K']] [Hso H]].
  apply bind_Ret in H; destruct H as [[x1 k'] [Hsh H]].
  apply bind_Ret in H; destruct H as [xs' [_ H]].
  apply bind_Ret in H; destruct H as [lk' [_ H]].
  injection H as <-; cbn [x0 fst snd] in *.
  assert (Eway : set_way (NF := NFb) d (way st) =
                 upd d B64.one (repeat B64.zero dim)).
  { apply (set_way_one_hot (NF := NFb)); auto. }
  rewrite Eway in Hso.
  set (way1 := upd d B64.one (repeat B64.zero dim)) in *.
  assert (Hlw : length way1 = dim)
    by (unfold way1; rewrite length_upd, repeat_length; reflexivity).
  assert (Hwj : nth j way1 B64.zero = B64.zero).
  { unfold way1; rewrite nth_upd_neq by congruence.
    apply nth_repeat. }
  unfold step_out in Hso.
  apply bind_Ret in Hso; destruct Hso as [[L1 J1] [HL Hso]].
  apply bind_Ret in Hso; destruct Hso as [[R1 K1] [HR Hso]].
  injection Hso as -> -> -> ->.
  set (L := bracket_L (NF := NFb) w (x0 st) way1 (rand (1 + draws st))) in *.
  assert (HlL : length L = length way1)
    by (unfold L; rewrite length_bracket_L; congruence).
  assert (HLj : b64_same (nth j L B64.zero) (nth j (x0 st) B64.zero)).
  { unfold L, bracket_L.
    rewrite nth_bcast by (rewrite ?length_map; congruence).
    rewrite nth_map_in by (rewrite length_map; lia).
    rewrite nth_map_in by lia; rewrite Hwj.
    cbn [fmul fsub B64.num].
    destruct (b64_mul_zero_r w false w_finite) as [s Hs].
    fold B64.zero in Hs; rewrite Hs.
    destruct (b64_mul_zero_l (rand (1 + draws st)) s (b64_rand_finite _))
      as [s' ->].
    apply b64_sub_zero, b64_same_refl; exact Hfin. }
  assert (HRj : b64_same (nth j (bracket_R (NF := NFb) w L way1) B64.zero)
                  (nth j (x0 st) B64.zero)).
  { unfold bracket_R; apply (b64_expand_same false); auto; lia. }
  assert (HlR : length (bracket_R (NF := NFb) w L way1) = length way1)
    by (rewrite length_bracket_R; auto).
  pose proof HL as HlL1; apply step_out_left_length in HlL1; [| exact HlL].
  pose proof HR as HlR1; apply step_out_right_length in HlR1; [| exact HlR].
  apply b64_step_out_left_same with (j := j) (c := nth j (x0 st) B64.zero)
    in HL; [| exact HlL | lia | exact Hwj | exact HLj].
  apply b64_step_out_right_same with (j := j) (c := nth j (x0 st) B64.zero)
    in HR; [| exact HlR | lia | exact Hwj | exact HRj].
  apply b64_shrink_same with (j := j) (c := nth j (x0 st) B64.zero) in Hsh;
    [exact Hsh | congruence | lia | exact HL | exact HR].
Qed.

Lemma b64_steps_way01 N dim fuel ds st st' :
  wf N dim st -> i st + length ds <= N ->
  Forall (fun a => a = B64.zero \/ a = B64.one) (way st) ->
  steps (NF := NFb) rand g xargs w m fuel ds st = Ret st' ->
  Forall (fun a => a = B64.zero \/ a = B64.one) (way st').
Proof.
  intros Hwf Hi H01 H.
  apply (steps_way (NF := NFb) rand g xargs w m eq_refl eq_refl N dim) in H;
    auto.
  rewrite H; destruct (rev ds); [exact H01 |].
  apply (one_hot_01 (NF := NFb)).
Qed.

(** C10, as amended.  In binary64, for a finite [w] and draws in [0, 1),
    every coordinate step changes at most one of the finite components: for
    every [t >= 1], a component of row [t-1] that is finite and is not the
    coordinate [(t-1) mod dim] of step [t] has the same value in row [t]
    (the same float, or a zero for a zero), so that the two compare
    equal. *)
Theorem off_axis_unchanged_b64 fuel dim x N chain lik t j :
  valid dim x N ->
  slicer (NF := NFb) rand g xargs w m fuel dim x N = Ret (chain, lik) ->
  1 <= t < Z.to_nat N ->
  j < Z.to_nat dim -> j <> (t - 1) mod Z.to_nat dim ->
  b64_finite (nth j (nth (t - 1) chain []) B64.zero) = true ->
  b64_same (nth j (nth t chain []) B64.zero)
           (nth j (nth (t - 1) chain []) B64.zero) /\
  SFeqb (nth j (nth t chain []) B64.zero)
        (nth j (nth (t - 1) chain []) B64.zero) = true.
Proof.
  intros (HN & Hdim & Hx) H Ht Hj Hjd Hfin.
  apply slicer_Ret in H; destruct H as (st' & Hrun & <- & <-).
  destruct (run_step _ _ _ _ _ fuel dim x N st' t HN ltac:(lia) Hx Hrun Ht)
    as (pre & post & Hpre & _ & Hstep & Hwf & Hi & Hx0 & Hx1 & _).
  destruct (slicer_init_ok (NF := NFb) g xargs dim x N HN ltac:(lia) Hx)
    as (st0 & Hinit & Hwf0 & Hi0 & _).
  assert (Hw0 : way st0 = repeat B64.zero (Z.to_nat dim)).
  { revert Hinit; unfold slicer_init.
    replace (N <? 0)%Z with false by (symmetry; apply Z.ltb_ge; lia).
    replace (dim <? 0)%Z with false by (symmetry; apply Z.ltb_ge; lia).
    cbn [orb]; intros Hinit.
    apply bind_Ret in Hinit; destruct Hinit as [xs0 [_ Hinit]].
    apply bind_Ret in Hinit; destruct Hinit as [lk0 [_ Hinit]].
    injection Hinit as <-; reflexivity. }
  unfold state_after in Hpre; rewrite Hinit in Hpre; cbn [bind] in Hpre.
  apply (b64_steps_way01 (Z.to_nat N) (Z.to_nat dim)) in Hpre;
    [| exact Hwf0 | rewrite length_dirs; lia
     | rewrite Hw0; apply Forall_forall; intros a Ha;
       apply repeat_spec in Ha; auto].
  rewrite <- Hx0 in Hfin |- *; rewrite <- Hx1.
  assert (Hs : b64_same (nth j (x0 post) B64.zero) (nth j (x0 pre) B64.zero)).
  { apply (b64_coord_step_same (Z.to_nat N) (Z.to_nat dim) fuel
             ((t - 1) mod Z.to_nat dim) pre post j Hwf); auto; try lia.
    apply Nat.mod_upper_bound; lia. }
  split; [exact Hs | apply b64_same_eqb; exact Hs].
Qed.

End B64OffAxis.

(** * Further properties: a density that is infinite everywhere *)

Section Flat.

Context {F : Type} {NF : Num F} {X : Type}.
Variable rand : nat -> F.
Variable g : list F -> X -> F.
Variable xargs : X.
Variable w : F.
Variable m : Z.

(** No point is above a slice height taken at any point. *)
Hypothesis never_above_height :
  forall v u v', fltb (fadd (g v xargs) (flog u)) (g v' xargs) = false.

Lemma shrink_height_diverges fuel d x u Lbar Rbar k :
  shrink rand g xargs fuel d x (fadd (g x xargs) (flog u)) Lbar Rbar k = Fuel.
Proof.
  revert Lbar Rbar k; induction fuel as [| fuel IH]; simpl;
    intros Lbar Rbar k; [reflexivity |].
  rewrite never_above_height.
  destruct (fltb (nth d _ fzero) (nth d x fzero)); apply IH.
Qed.

Lemma slicer_height_diverges fuel dim x N :
  valid dim x N -> (2 <= N)%Z ->
  slicer rand g xargs w m fuel dim x N = Fuel.
Proof.
  intros (HN & Hdim & Hx) H2.
  destruct (slicer_init_ok g xargs dim x N HN ltac:(lia) Hx)
    as (st0 & Hinit & _ & Hi0 & _).
  unfold slicer, slicer_run; rewrite Hinit; simpl.
  destruct fuel as [| fuel]; simpl; [reflexivity |].
  replace (i st0 <? Z.to_nat N) with true
    by (symmetry; apply Nat.ltb_lt; lia).
  destruct (Z.to_nat dim) as [| D] eqn:ED; [lia |].
  simpl; unfold coord_step.
  destruct (step_out g xargs w m (S fuel) _ _ _ _ _) as [LR | e |] eqn:E;
    cbn [bind]; [| | reflexivity].
  - rewrite shrink_height_diverges; reflexivity.
  - exfalso; unfold step_out in E.
    apply bind_Raise in E; destruct E as [E | [LJ [_ E]]].
    + eapply step_out_left_no_raise; exact E.
    + apply bind_Raise in E; destruct E as [E | [RK [_ E]]]; [| discriminate].
      eapply step_out_right_no_raise; exact E.
Qed.

End Flat.

(** X15.  In binary64 a log-density that is the same infinity at every
    point (zero density everywhere, say) hangs the sampler: the slice
    height is that infinity or NaN, no candidate is above it, and a run
    with [N >= 2] returns for no amount of fuel. *)
Theorem infinite_density_never_returns
  (ln : spec_float -> spec_float) (X : Type)
  (rand : nat -> spec_float) (g : list spec_float -> X -> spec_float)
  (xargs : X) (w : spec_float) (m : Z) (s : bool) (fuel : nat) (dim : Z)
  (x : list spec_float) (N : Z) :
  (forall v, g v xargs = S754_infinity s) ->
  valid dim x N -> (2 <= N)%Z ->
  slicer (NF := B64.num ln) rand g xargs w m fuel dim x N = Fuel.
Proof.
  intros Hg Hv HN; apply slicer_height_diverges; auto.
  intros v u v'; rewrite !Hg; cbn [fltb fadd flog B64.num].
  destruct (ln u) as [s' | s' | | s' mx e]; destruct s; try destruct s';
    reflexivity.
Qed.

(** * The further properties on the runs of [Demo] and [RDemo] *)

Lemma demo_rand_unit k :
  SFltb (Demo.rand k) B64.zero = false /\ SFltb (Demo.rand k) B64.one = true.
Proof. unfold Demo.rand; destruct (Nat.even k); split; reflexivity. Qed.


Lemma single_row_run_witness :
  Demo.run 1 B64.half 10 2 1 = Ret ([Demo.start], [Demo.gauss Demo.start tt]).
Proof.
  apply (single_row_run (NF := B64.num B64.log_table) Demo.rand Demo.gauss tt
           B64.half 10 0 2 Demo.start).
  - lia.
  - reflexivity.
Defined.

Lemma no_coordinate_witness :
  slicer (NF := B64.num B64.log_table) Demo.rand Demo.gauss tt B64.half 10
    1000 0 [] 2 = Fuel.
Proof.
  apply (no_coordinate_never_returns (NF := B64.num B64.log_table)).
  lia.
Defined.


Lemma step_out_stops_witness :
  (Rat.ltb (Q2Qc 0) (snd (fst RDemo.first_bracket)) = false \/
   Rat.ltb (Qcplus (RDemo.gauss RDemo.start tt) (Rat.log_lin (RDemo.rand 0)))
     (RDemo.gauss (fst (fst RDemo.first_bracket)) tt) = false) /\
  (Rat.ltb (Q2Qc 0) (snd (snd RDemo.first_bracket)) = false \/
   Rat.ltb (Qcplus (RDemo.gauss RDemo.start tt) (Rat.log_lin (RDemo.rand 0)))
     (RDemo.gauss (fst (snd RDemo.first_bracket)) tt) = false).
Proof.
  apply (step_out_stops (NF := Rat.num Rat.log_lin) RDemo.gauss tt Rat.half
           10 30 RDemo.start
           (set_way (NF := Rat.num Rat.log_lin) 0 [Q2Qc 0; Q2Qc 0])
           (Qcplus (RDemo.gauss RDemo.start tt) (Rat.log_lin (RDemo.rand 0)))
           (RDemo.rand 1) (RDemo.rand 2)).
  vm_compute; reflexivity.
Defined.

Lemma first_likelihood_repeated_witness :
  nth 0 Demo.lik B64.zero = Demo.gauss Demo.start tt /\
  nth 1 Demo.lik B64.zero = Demo.gauss Demo.start tt.
Proof.
  apply (first_likelihood_repeated (NF := B64.num B64.log_table) Demo.rand
           Demo.gauss tt B64.half 10 30 2 Demo.start 4 Demo.chain Demo.lik).
  - exact demo_valid.
  - lia.
  - vm_compute; reflexivity.
Defined.




Lemma shorter_run_is_prefix_witness :
  Demo.run 30 B64.half 10 2 2 =
  Ret (firstn (Z.to_nat 2) Demo.chain, firstn (Z.to_nat 2) Demo.lik).
Proof.
  apply (shorter_run_is_prefix (NF := B64.num B64.log_table) Demo.rand
           Demo.gauss tt B64.half 10 30 2 Demo.start 4 2 Demo.chain Demo.lik).
  - exact demo_valid.
  - lia.
  - vm_compute; reflexivity.
Defined.



Lemma way_one_hot_witness :
  exists st,
    state_after (NF := B64.num B64.log_table) Demo.rand Demo.gauss tt
      B64.half 10 30 2 Demo.start 4 2 = Ret st /\
    way st = [B64.zero; B64.one].
Proof.
  refine (ex_intro _ _ (conj _ _)).
  - vm_compute; reflexivity.
  - apply (way_one_hot (NF := B64.num B64.log_table) Demo.rand Demo.gauss tt
             B64.half 10 eq_refl eq_refl 30 2 Demo.start 4 2).
    + exact demo_valid.
    + simpl; lia.
    + vm_compute; reflexivity.
Defined.

Lemma off_axis_unchanged_b64_witness :
  SFeqb (nth 0 (nth 2 Demo.chain []) B64.zero)
        (nth 0 (nth (2 - 1) Demo.chain []) B64.zero) = true.
Proof.
  apply (off_axis_unchanged_b64 B64.log_table unit Demo.rand Demo.gauss tt
           B64.half 10 eq_refl demo_rand_unit 30 2 Demo.start 4 Demo.chain
           Demo.lik 2 0).
  - exact demo_valid.
  - vm_compute; reflexivity.
  - simpl; lia.
  - simpl; lia.
  - simpl; lia.
  - reflexivity.
Defined.

Lemma infinite_density_witness :
  slicer (NF := B64.num B64.log_table) Demo.rand
    (fun _ _ => S754_infinity true) tt B64.half 10 1000 2 Demo.start 4 = Fuel.
Proof.
  apply (infinite_density_never_returns B64.log_table unit Demo.rand
           (fun _ _ => S754_infinity true) tt B64.half 10 true 1000 2
           Demo.start 4).
  - intros v; reflexivity.
  - exact demo_valid.
  - lia.
Defined.

(** X14.  In binary64 too, rounding, NaN and infinities included: with
    [m = 0] neither step-out loop is entered, whatever the draws and the
    density are, and the step-out returns the bracket of width one [w] it
    first placed, with the budgets [floor(0 * V)] and [-1 - floor(0 * V)]
    untouched. *)
Theorem zero_budget_keeps_bracket_b64 (ln : spec_float -> spec_float)
  (X : Type) (g : list spec_float -> X -> spec_float) (xargs : X)
  (w : spec_float) (fuel : nat) (x way : list spec_float)
  (y U V : spec_float) :
  exists J K,
    step_out (NF := B64.num ln) g xargs w 0 (S fuel) x way y U V =
    Ret ((bracket_L (NF := B64.num ln) w x way U, J),
         (bracket_R (NF := B64.num ln) w
            (bracket_L (NF := B64.num ln) w x way U) way, K)) /\
    SFltb B64.zero J = false /\ SFltb B64.zero K = false.
Proof.
  exists (budget_J (NF := B64.num ln) 0 V),
    (budget_K (NF := B64.num ln) 0 (budget_J (NF := B64.num ln) 0 V)).
  split; [apply b64_zero_budget_no_expansion |].
  split; destruct V as [s | s | | s mv e]; try reflexivity;
    destruct s; reflexivity.
Qed.
